(** * Render & interaction engine of script.js

    A shallow embedding of the Three.js scene set-up ([setupThree]), the
    performance monitor ([Perf.frameTick]) and the numeric helpers of
    [script.js], together with the properties stated about them.

    JavaScript numbers are IEEE doubles.  This development idealises them as
    real numbers: [+], [-], [*], [/], [Math.sqrt], [Math.pow] are the exact
    operations, [Math.min]/[Math.max] are [Rmin]/[Rmax], and the values
    [NaN] and [Infinity] do not occur.  Counters that the script only ever
    increments by one are natural numbers; values produced by [Math.round]
    are integers. *)

From Stdlib Require Import Reals Lra Lia List ZArith Bool.
Import ListNotations.

Open Scope R_scope.

(** ** Numeric helpers (script.js, lines 106-123) *)

(** [function clamp(v, a, b) { return Math.max(a, Math.min(b, v)); }] *)
Definition clamp (v a b : R) : R := Rmax a (Rmin b v).

(** [function lerp(a, b, t) { return a + (b - a) * t; }] *)
Definition lerp (a b t : R) : R := a + (b - a) * t.

(** [function easeOutCubic(t) { return 1 - Math.pow(1 - t, 3); }] *)
Definition easeOutCubic (t : R) : R := 1 - (1 - t) ^ 3.

(** ** The parts of JavaScript and of Three.js the engine calls *)

Module JS.

(** [Math.round]: the nearest integer, ties towards plus infinity. *)
Definition Math_round (x : R) : Z := Int_part (x + / 2).

(** [Math.trunc], used by the remainder operator. *)
Definition trunc (x : R) : Z :=
  if Rle_dec 0 x then Int_part x else (- Int_part (- x))%Z.

(** [x % y] on numbers: the remainder of the truncated division, which
    carries the sign of the dividend. *)
Definition rem (x y : R) : R := x - y * IZR (trunc (x / y)).

(** Truthiness of a number: every number but zero ([NaN] is not modelled). *)
Definition truthy (x : R) : bool := if Req_dec_T x 0 then false else true.

(** [v || d] where [v] is a possibly undefined number. *)
Definition or_default (v : option R) (d : R) : R :=
  match v with
  | Some x => if truthy x then x else d
  | None => d
  end.

End JS.

Module THREE.

Record Vector2 : Type := mkVector2 { x2 : R; y2 : R }.

Record Vector3 : Type := mkVector3 { x : R; y : R; z : R }.

(** [new THREE.Vector3()] *)
Definition origin3 : Vector3 := mkVector3 0 0 0.

Definition dot (a b : Vector3) : R := x a * x b + y a * y b + z a * z b.

Definition distanceToSquared (a b : Vector3) : R :=
  let dx := x a - x b in
  let dy := y a - y b in
  let dz := z a - z b in
  dx * dx + dy * dy + dz * dz.

(** [Vector3.distanceTo]: the Euclidean distance. *)
Definition distanceTo (a b : Vector3) : R := sqrt (distanceToSquared a b).

(** [Vector3.setScalar(s)] *)
Definition setScalar (s : R) : Vector3 := mkVector3 s s s.

Record Ray : Type := mkRay { ray_origin : Vector3; ray_direction : Vector3 }.

Record Plane : Type := mkPlane { normal : Vector3; constant : R }.

(** [Plane.distanceToPoint] *)
Definition distanceToPoint (p : Plane) (v : Vector3) : R :=
  dot (normal p) v + constant p.

(** Modelled from the spec: [Ray.distanceToPlane] is Three.js code, which
    the script only calls.  The distance along the ray to its point on
    the plane; [null] when there is no such point: the ray is parallel to
    the plane and off it, or the plane lies behind the ray. *)
Definition distanceToPlane (r : Ray) (p : Plane) : option R :=
  let denominator := dot (normal p) (ray_direction r) in
  if Req_dec_T denominator 0 then
    if Req_dec_T (distanceToPoint p (ray_origin r)) 0 then Some 0 else None
  else
    let t := - (dot (ray_origin r) (normal p) + constant p) / denominator in
    if Rle_dec 0 t then Some t else None.

(** [Ray.at(t, target)] *)
Definition at_ (r : Ray) (t : R) : Vector3 :=
  mkVector3 (x (ray_origin r) + x (ray_direction r) * t)
            (y (ray_origin r) + y (ray_direction r) * t)
            (z (ray_origin r) + z (ray_direction r) * t).

(** Modelled from the spec: [Ray.intersectPlane(plane, target)] is
    Three.js code, which the script only calls.  It stores the
    intersection in [target] when there is one; if no intersection exists
    the previous content of [target] is retained.  The result is the
    content of [target] after the call. *)
Definition intersectPlane (r : Ray) (p : Plane) (target : Vector3) : Vector3 :=
  match distanceToPlane r p with
  | Some t => at_ r t
  | None => target
  end.

End THREE.

Import THREE.

(** ** Scene objects *)

(** The arguments of [new THREE.TorusGeometry(radius, tube, 20, 80)]. *)
Record TorusGeometry : Type := mkTorus { radius : R; tube : R }.

(** The colour given to [setHSL] for the ring material. *)
Record HSL : Type := mkHSL { hue : R; saturation : R; lightness : R }.

(** A ring of the torus cluster: a [THREE.Mesh] with its geometry, material
    colour, transform and [userData.index]. *)
Record Mesh : Type := mkMesh {
  index : nat;
  geometry : TorusGeometry;
  color : HSL;
  position : Vector3;
  rotation : Vector3;
  scale : Vector3
}.

(** [const count = 9;] *)
Definition count : nat := 9.

(** The hue expression of [buildTori]: [(0.55 + (i / count) * 0.25) % 1]. *)
Definition ringHue (i : nat) : R :=
  JS.rem (0.55 + (INR i / INR count) * 0.25) 1.

(** [i % 2] and [i % 3] on loop indices. *)
Definition parity (i : nat) : R := INR (i mod 2).

(** One iteration of the loop of [buildTori]. *)
Definition buildTorus (i : nat) : Mesh :=
  let a := INR i / INR count * PI * 2 in
  {| index := i;
     geometry := mkTorus (0.8 + INR i * 0.08) (0.08 + parity i * 0.03);
     color := mkHSL (ringHue i) 0.7 0.48;
     position := mkVector3 (cos a * (1.6 + INR i * 0.14))
                           (sin a * (0.6 + INR i * 0.06))
                           (- INR i * 0.06);
     rotation := mkVector3 (PI * 0.15 * (if Nat.eqb (i mod 2) 0 then 1 else -1)) 0 0;
     scale := setScalar 1 |}.

(** [buildTori]: the children of [torusGroup], in insertion order. *)
Definition buildTori : list Mesh := map buildTorus (seq 0 count).

(** ** Pointer proximity response (script.js, lines 757-766) *)

(** The scale [s] computed in [updateTori] from the distance [d]. *)
Definition ringScale (d : R) : R :=
  let t := clamp (1 - d * 0.26) 0 1 in
  lerp 0.98 1.14 (easeOutCubic t).

(** The body of the [forEach] callback of [updateTori]. *)
Definition updateTorus (pointer3D : Vector3) (m : Mesh) : Mesh :=
  let d := distanceTo (position m) pointer3D in
  let t := clamp (1 - d * 0.26) 0 1 in
  let s := lerp 0.98 1.14 (easeOutCubic t) in
  {| index := index m;
     geometry := geometry m;
     color := color m;
     position := position m;
     rotation := mkVector3 (x (rotation m))
                           (y (rotation m) + 0.001)
                           (z (rotation m) + (0.002 + 0.002 * INR (index m mod 3)));
     scale := setScalar s |}.

(** ** Performance monitor (script.js, lines 267-301) *)

(** What a HUD element shows: [textContent] of [#fps], [#tris], [#mem]. *)
Inductive Text : Type :=
| Markup                (* the text the page was delivered with *)
| Number (v : R)        (* String(v) *)
| Megabytes (n : Z)     (* `${n}MB` *)
| Dash.                 (* the marker for an unavailable reading *)

(** What [frameTick] finds when it evaluates its [renderer] argument and
    [renderer.info.render.triangles]. *)
Inductive TrianglesSource : Type :=
| NoRenderer              (* renderer is null or undefined *)
| InfoMissing             (* renderer.info or renderer.info.render is missing: the access throws *)
| TrianglesUndefined      (* renderer.info.render has no triangles property *)
| Triangles (n : R).      (* a number *)

(** The closure variables of [Perf]; an element that [q] did not find is
    [None]. *)
Record PerfState : Type := mkPerf {
  last : R;
  frames : nat;
  fps : Z;
  fpsEl : option Text;
  trisEl : option Text;
  memEl : option Text
}.

(** [if (el) el.textContent = v] *)
Definition setText (el : option Text) (v : Text) : option Text :=
  match el with
  | Some _ => Some v
  | None => None
  end.

(** The triangle branch of [frameTick]:
    [if (renderer && trisEl) { try { ... String(triangles || 0) } catch (e) { '—' } }]. *)
Definition showTriangles (renderer : TrianglesSource) (el : option Text) : option Text :=
  match renderer with
  | NoRenderer => el
  | InfoMissing => setText el Dash
  | TrianglesUndefined => setText el (Number (JS.or_default None 0))
  | Triangles n => setText el (Number (JS.or_default (Some n) 0))
  end.

(** The memory branch of [frameTick]; [heap] is
    [performance.memory.usedJSHeapSize], [None] when [performance.memory]
    is not there. *)
Definition showMemory (heap : option R) (el : option Text) : option Text :=
  match heap with
  | Some bytes =>
      if JS.truthy bytes
      then setText el (Megabytes (JS.Math_round (bytes / 1024 / 1024)))
      else setText el Dash
  | None => setText el Dash
  end.

(** [Perf.frameTick(renderer)]; [t] is the reading of [now()]. *)
Definition frameTick (renderer : TrianglesSource) (t : R) (heap : option R)
    (p : PerfState) : PerfState :=
  let frames1 := S (frames p) in
  let dt := t - last p in
  if Rle_dec 1000 dt then
    let fps1 := JS.Math_round ((INR frames1 * 1000) / dt) in
    {| last := t;
       frames := 0;
       fps := fps1;
       fpsEl := setText (fpsEl p) (Number (IZR fps1));
       trisEl := showTriangles renderer (trisEl p);
       memEl := showMemory heap (memEl p) |}
  else
    {| last := last p;
       frames := frames1;
       fps := fps p;
       fpsEl := fpsEl p;
       trisEl := trisEl p;
       memEl := memEl p |}.

(** Whether a call of [frameTick] emits a telemetry sample. *)
Definition emits (t : R) (p : PerfState) : Prop := 1000 <= t - last p.


(** ** The engine state: the closure variables of [setupThree] *)

(** [CFG.three.pixelRatioLimit] *)
Definition pixelRatioLimit : R := 2.

Record Window : Type := mkWindow {
  innerWidth : R;
  innerHeight : R;
  devicePixelRatio : option R      (* [None]: the property is undefined *)
}.

Record PointerEvent : Type := mkPointerEvent { clientX : R; clientY : R }.

(** The renderer: its pixel ratio and size, the number of [render] calls it
    has received and [info.render.triangles] of the last one. *)
Record Renderer : Type := mkRenderer {
  pixelRatio : R;
  width : R;
  height : R;
  renderCalls : nat;
  triangles : R
}.

(** GPU-side objects [dispose] releases. *)
Inductive Resource : Type :=
| TheRenderer
| ParticlesGeometry
| ParticlesMaterial
| RingGeometry (i : nat)
| RingMaterial (i : nat).

(** What one turn of the render loop reads from its environment: [now()] in
    [renderLoop], the triangle count of the draw call, [now()] in
    [frameTick] and the heap size. *)
Record Frame : Type := mkFrame {
  now_loop : R;
  drawn : R;
  now_perf : R;
  heap : option R
}.

(** The animated values [animateThree] writes besides the rings. *)
Record Motion : Type := mkMotion {
  elapsed : R;
  root_rotation_y : R;
  root_position_y : R;
  uTime : R;
  particles_rotation_y : R;
  orbitLight : Vector3
}.

Section Engine.

(** The camera pose is owned by Three.js: [OrbitControls.update] moves it
    and [Raycaster.setFromCamera] reads it. *)
Variable View : Type.
Variable initialView : View.
Variable controls_update : View -> View.

(** [aspect] is the property the script assigns; [projection] is the
    aspect the projection matrix was last computed from. *)
Record Camera : Type := mkCamera {
  aspect : R;
  projection : R;
  view : View
}.

(** [ray.setFromCamera(pointer, camera)] followed by [ray.ray]. *)
Variable setFromCamera : Vector2 -> Camera -> Ray.

Record Engine : Type := mkEngine {
  renderer : Renderer;
  camera : Camera;
  torusGroup : list Mesh;
  pointer : Vector2;
  pointer3D : Vector3;
  motion : Motion;
  lastTime : R;
  perf : PerfState;
  released : list Resource;     (* every dispose() call made on a resource, oldest first *)
  requested : nat               (* requestAnimationFrame(renderLoop) calls made *)
}.

(** [Math.min(window.devicePixelRatio || 1, CFG.three.pixelRatioLimit)] *)
Definition DPR (w : Window) : R :=
  Rmin (JS.or_default (devicePixelRatio w) 1) pixelRatioLimit.

(** [resize()] (lines 614-622). *)
Definition resize (win : Window) (st : Engine) : Engine :=
  let dpr := DPR win in
  let w := innerWidth win in
  let h := innerHeight win in
  let r1 := {| pixelRatio := dpr;
               width := width (renderer st);
               height := height (renderer st);
               renderCalls := renderCalls (renderer st);
               triangles := triangles (renderer st) |} in
  let r2 := {| pixelRatio := pixelRatio r1;
               width := w;
               height := h;
               renderCalls := renderCalls r1;
               triangles := triangles r1 |} in
  let c1 := {| aspect := w / h;
               projection := projection (camera st);
               view := view (camera st) |} in
  let c2 := {| aspect := aspect c1;
               projection := aspect c1;
               view := view c1 |} in
  {| renderer := r2;
     camera := c2;
     torusGroup := torusGroup st;
     pointer := pointer st;
     pointer3D := pointer3D st;
     motion := motion st;
     lastTime := lastTime st;
     perf := perf st;
     released := released st;
     requested := requested st |}.

(** [new THREE.Plane(new THREE.Vector3(0, 0, 1), 0)] *)
Definition planeZ : Plane := mkPlane (mkVector3 0 0 1) 0.

(** The ray [onPointerMove] casts for an event. *)
Definition pointerNDC (e : PointerEvent) (win : Window) : Vector2 :=
  let x := (clientX e / innerWidth win) * 2 - 1 in
  let y := - (clientY e / innerHeight win) * 2 + 1 in
  mkVector2 x y.

Definition pointerRay (e : PointerEvent) (win : Window) (st : Engine) : Ray :=
  setFromCamera (pointerNDC e win) (camera st).

(** [onPointerMove(e)] (lines 745-752). *)
Definition onPointerMove (e : PointerEvent) (win : Window) (st : Engine) : Engine :=
  let p := pointerNDC e win in
  let r := setFromCamera p (camera st) in
  {| renderer := renderer st;
     camera := camera st;
     torusGroup := torusGroup st;
     pointer := p;
     pointer3D := intersectPlane r planeZ (pointer3D st);
     motion := motion st;
     lastTime := lastTime st;
     perf := perf st;
     released := released st;
     requested := requested st |}.

(** [updateTori(dt)] on the ring list. *)
Definition updateTori (pointer3D : Vector3) (ms : list Mesh) : list Mesh :=
  map (updateTorus pointer3D) ms.

(** [renderer.render(scene, camera)]: one draw call, after which
    [renderer.info.render.triangles] holds the count of that call. *)
Definition render (tris : R) (r : Renderer) : Renderer :=
  {| pixelRatio := pixelRatio r;
     width := width r;
     height := height r;
     renderCalls := S (renderCalls r);
     triangles := tris |}.

(** [animateThree(dt)] (lines 770-784). *)
Definition animateThree (dt : R) (f : Frame) (st : Engine) : Engine :=
  let elapsed1 := elapsed (motion st) + dt in
  let m1 := {| elapsed := elapsed1;
               root_rotation_y := sin (elapsed1 * 0.0005) * 0.12;
               root_position_y := sin (elapsed1 * 0.0003) * 0.12;
               uTime := elapsed1;
               particles_rotation_y := particles_rotation_y (motion st) + 0.0002;
               orbitLight := mkVector3 (cos (elapsed1 * 0.0007) * 3.6)
                                       (y (orbitLight (motion st)))
                                       (sin (elapsed1 * 0.0009) * 3.6) |} in
  let rings := updateTori (pointer3D st) (torusGroup st) in
  let cam := {| aspect := aspect (camera st);
                projection := projection (camera st);
                view := controls_update (view (camera st)) |} in
  let r1 := render (drawn f) (renderer st) in
  {| renderer := r1;
     camera := cam;
     torusGroup := rings;
     pointer := pointer st;
     pointer3D := pointer3D st;
     motion := m1;
     lastTime := lastTime st;
     perf := frameTick (Triangles (triangles r1)) (now_perf f) (heap f) (perf st);
     released := released st;
     requested := requested st |}.

(** The [dt] that [renderLoop] hands to [animateThree]. *)
Definition frame_dt (f : Frame) (st : Engine) : R := now_loop f - lastTime st.

(** [renderLoop()] (lines 788-794). *)
Definition renderLoop (f : Frame) (st : Engine) : Engine :=
  let t := now_loop f in
  let dt := t - lastTime st in
  let st1 := {| renderer := renderer st;
                camera := camera st;
                torusGroup := torusGroup st;
                pointer := pointer st;
                pointer3D := pointer3D st;
                motion := motion st;
                lastTime := t;
                perf := perf st;
                released := released st;
                requested := requested st |} in
  let st2 := animateThree dt f st1 in
  {| renderer := renderer st2;
     camera := camera st2;
     torusGroup := torusGroup st2;
     pointer := pointer st2;
     pointer3D := pointer3D st2;
     motion := motion st2;
     lastTime := lastTime st2;
     perf := perf st2;
     released := released st2;
     requested := S (requested st2) |}.

(** The release calls of one [dispose()], in call order. *)
Definition disposeCalls (ms : list Mesh) : list Resource :=
  [TheRenderer; ParticlesGeometry; ParticlesMaterial]
    ++ flat_map (fun m => [RingGeometry (index m); RingMaterial (index m)]) ms.

(** [dispose()] (lines 806-815). *)
Definition dispose (st : Engine) : Engine :=
  {| renderer := renderer st;
     camera := camera st;
     torusGroup := torusGroup st;
     pointer := pointer st;
     pointer3D := pointer3D st;
     motion := motion st;
     lastTime := lastTime st;
     perf := perf st;
     released := released st ++ disposeCalls (torusGroup st);
     requested := requested st |}.

(** [setupThree()] once the canvas is found: the state when it returns.
    [t0] is the reading of [now()] that initialises [lastTime]; [p] is
    the state of [Perf]. *)
Definition setupThree (win : Window) (t0 : R) (p : PerfState) : Engine :=
  let st0 :=
    {| renderer := {| pixelRatio := DPR win;
                      width := 300;            (* the size of a canvas nobody has sized yet *)
                      height := 150;
                      renderCalls := 0;
                      triangles := 0 |};
       camera := {| aspect := innerWidth win / innerHeight win;
                    projection := innerWidth win / innerHeight win;
                    view := initialView |};
       torusGroup := [];
       pointer := mkVector2 (-1) (-1);
       pointer3D := origin3;
       motion := {| elapsed := 0;
                    root_rotation_y := 0;
                    root_position_y := 0;
                    uTime := 0;
                    particles_rotation_y := 0;
                    orbitLight := mkVector3 4 3.4 2 |};
       lastTime := t0;
       perf := p;
       released := [];
       requested := 0 |} in
  let st1 := resize win st0 in
  {| renderer := renderer st1;
     camera := camera st1;
     torusGroup := buildTori;
     pointer := pointer st1;
     pointer3D := pointer3D st1;
     motion := motion st1;
     lastTime := lastTime st1;
     perf := perf st1;
     released := released st1;
     requested := 1 |}.

(** What the host can deliver to a constructed engine. *)
Inductive Event : Type :=
| Tick (f : Frame)
| Resized (win : Window)
| PointerMoved (e : PointerEvent) (win : Window)
| Disposed.

Definition step (st : Engine) (ev : Event) : Engine :=
  match ev with
  | Tick f => renderLoop f st
  | Resized win => resize win st
  | PointerMoved e win => onPointerMove e win st
  | Disposed => dispose st
  end.

(** The state after a sequence of events, oldest first. *)
Definition run (evs : list Event) (st : Engine) : Engine := fold_left step evs st.

(** A ray meets the plane [z = 0] when one of its points lies on it. *)
Definition meetsPlaneZ (r : Ray) : Prop :=
  exists t : R, 0 <= t /\ z (at_ r t) = 0.

End Engine.

Arguments aspect {View} _.
Arguments projection {View} _.
Arguments view {View} _.
Arguments renderer {View} _.
Arguments camera {View} _.
Arguments torusGroup {View} _.
Arguments pointer {View} _.
Arguments pointer3D {View} _.
Arguments motion {View} _.
Arguments lastTime {View} _.
Arguments perf {View} _.
Arguments released {View} _.
Arguments requested {View} _.
Arguments resize {View} win st.
Arguments pointerRay {View} setFromCamera e win st.
Arguments onPointerMove {View} setFromCamera e win st.
Arguments animateThree {View} controls_update dt f st.
Arguments frame_dt {View} f st.
Arguments renderLoop {View} controls_update f st.
Arguments dispose {View} st.
Arguments setupThree {View} initialView win t0 p.
Arguments step {View} controls_update setFromCamera st ev.
Arguments run {View} controls_update setFromCamera evs st.

(** The aspect, the projection and the drawing surface agree. *)
Definition coherent {View : Type} (st : Engine View) : Prop :=
  aspect (camera st) = width (renderer st) / height (renderer st)
  /\ projection (camera st) = aspect (camera st).


(** ** Sample inputs *)

Module Sample.

(** A camera at [(0, 0, 6)]; [looksAway] says whether it has been turned
    to look along [+z], away from the plane [z = 0]. *)
Definition View : Type := bool.

Definition initialView : View := false.

Definition controls_update (v : View) : View := v.

(** The ray through the pointer: from the camera position, along the
    viewing axis tilted by the pointer offset. *)
Definition setFromCamera (p : Vector2) (c : Camera View) : Ray :=
  mkRay (mkVector3 0 0 6)
        (mkVector3 (x2 p) (y2 p) (if view c then 1 else -1)).

Definition window : Window := mkWindow 800 600 (Some 1).

Definition hud : PerfState :=
  {| last := 0; frames := 0; fps := 0;
     fpsEl := Some Markup; trisEl := Some Markup; memEl := Some Markup |}.

Definition engine : Engine View := setupThree initialView window 0 hud.

(** The same engine after the camera was turned around. *)
Definition turned : Engine View :=
  {| renderer := renderer engine;
     camera := {| aspect := aspect (camera engine);
                  projection := projection (camera engine);
                  view := true |};
     torusGroup := torusGroup engine;
     pointer := pointer engine;
     pointer3D := mkVector3 1 2 0;
     motion := motion engine;
     lastTime := lastTime engine;
     perf := perf engine;
     released := released engine;
     requested := requested engine |}.

Definition centre : PointerEvent := mkPointerEvent 400 300.

(** A frame whose clock reading lies before the previous one. *)
Definition early : Frame := mkFrame 5 1000 5 None.

(** [engine] after a frame at time 10. *)
Definition frame10 : Frame := mkFrame 10 1000 10 None.


End Sample.

(** A scene with a single ring at (1, 0, 0) and the pointer world point
    at [p]. *)

Module Probe.

Definition ring : Mesh :=
  {| index := 0;
     geometry := mkTorus 0.8 0.08;
     color := mkHSL 0.55 0.7 0.48;
     position := mkVector3 1 0 0;
     rotation := mkVector3 0 0 0;
     scale := setScalar 1 |}.

Definition withPointer (p : Vector3) : Engine Sample.View :=
  {| renderer := renderer Sample.engine;
     camera := camera Sample.engine;
     torusGroup := [ring];
     pointer := pointer Sample.engine;
     pointer3D := p;
     motion := motion Sample.engine;
     lastTime := lastTime Sample.engine;
     perf := perf Sample.engine;
     released := released Sample.engine;
     requested := requested Sample.engine |}.

(** The pointer at distance 1 from the ring. *)
Definition near : Engine Sample.View := withPointer origin3.

(** The pointer at distance 4 from the ring. *)
Definition far : Engine Sample.View := withPointer (mkVector3 5 0 0).

End Probe.

(** ** Further helpers of the script *)

(** [CFG.lenis.easing]:
    [(t) => t < 0.5 ? 4 * t * t * t : 1 - Math.pow(-2 * t + 2, 3) / 2] *)
Definition lenis_easing (t : R) : R :=
  if Rlt_dec t 0.5 then 4 * t * t * t else 1 - (-2 * t + 2) ^ 3 / 2.

(** The value of [Number(v)]: a finite number, or one of [NaN], [Infinity]
    and [-Infinity]. *)
Inductive Numeric : Type :=
| Finite (r : R)
| NotFinite.

(** [num(v, fallback)] (lines 115-118), on the value of [Number(v)]. *)
Definition num (n : Numeric) (fallback : R) : R :=
  match n with
  | Finite r => r
  | NotFinite => fallback
  end.

(** *** [throttle] and [debounce] (lines 126-146)

    The wrapped function is represented by the log of the arguments it was
    called with, oldest first. *)

Section Wrappers.

Variable A : Type.

(** What happens to a throttled function: a call, or the animation frame
    that runs the callbacks registered with [requestAnimationFrame]. *)
Inductive ThrottleEvent : Type :=
| Invoke (args : A)
| AnimationFrame.

(** The closure variable [waiting] and the log of [fn]. *)
Record Throttled : Type := mkThrottled { waiting : bool; forwarded : list A }.

Definition throttle_step (st : Throttled) (ev : ThrottleEvent) : Throttled :=
  match ev with
  | Invoke args =>
      if waiting st then st
      else {| waiting := true; forwarded := forwarded st ++ [args] |}
  | AnimationFrame => {| waiting := false; forwarded := forwarded st |}
  end.

Definition throttle_run (evs : list ThrottleEvent) (st : Throttled) : Throttled :=
  fold_left throttle_step evs st.

(** [throttle(fn, limit)] when it returns. *)
Definition throttle : Throttled := {| waiting := false; forwarded := [] |}.

(** What happens to a debounced function: a call, or the expiry of the
    timer armed by the latest call. *)
Inductive DebounceEvent : Type :=
| Call (args : A)
| Timeout.

(** The armed timer, with the arguments its callback holds, and the log of
    [fn]. *)
Record Debounced : Type := mkDebounced { timer : option A; delivered : list A }.

Definition debounce_step (st : Debounced) (ev : DebounceEvent) : Debounced :=
  match ev with
  | Call args => {| timer := Some args; delivered := delivered st |}
  | Timeout =>
      match timer st with
      | Some args => {| timer := None; delivered := delivered st ++ [args] |}
      | None => st
      end
  end.

Definition debounce_run (evs : list DebounceEvent) (st : Debounced) : Debounced :=
  fold_left debounce_step evs st.

(** [debounce(fn, wait)] when it returns. *)
Definition debounce : Debounced := {| timer := None; delivered := [] |}.

Definition frameCount (evs : list ThrottleEvent) : nat :=
  length (filter (fun ev => match ev with AnimationFrame => true | Invoke _ => false end) evs).

Definition timeoutCount (evs : list DebounceEvent) : nat :=
  length (filter (fun ev => match ev with Timeout => true | Call _ => false end) evs).

End Wrappers.

Arguments Invoke {A} args.
Arguments AnimationFrame {A}.
Arguments Call {A} args.
Arguments Timeout {A}.
Arguments waiting {A} _.
Arguments forwarded {A} _.
Arguments timer {A} _.
Arguments delivered {A} _.
Arguments throttle_step {A} st ev.
Arguments throttle_run {A} evs st.
Arguments throttle {A}.
Arguments debounce_step {A} st ev.
Arguments debounce_run {A} evs st.
Arguments debounce {A}.
Arguments frameCount {A} evs.
Arguments timeoutCount {A} evs.

(** *** Navigation (lines 396-446) *)

Module Nav.

(** The value of an attribute as the click handler sees it. *)
Inductive Attr : Type :=
| AttrTrue       (* 'true' *)
| AttrFalse      (* 'false' *)
| AttrOther.     (* any other string, or no attribute *)

(** [String(b)] *)
Definition ofBool (b : bool) : Attr := if b then AttrTrue else AttrFalse.

(** [aria-expanded] of the toggle and [aria-hidden] of the menu. *)
Record Menu : Type := mkMenu { aria_expanded : Attr; aria_hidden : Attr }.

(** The click handler of the menu toggle (lines 405-409). *)
Definition toggle (m : Menu) : Menu :=
  let expanded := match aria_expanded m with AttrTrue => true | _ => false end in
  {| aria_expanded := ofBool (negb expanded);
     aria_hidden := ofBool expanded |}.

(** What [updateProgress] reads from the window and the document. *)
Record Metrics : Type := mkMetrics {
  scrollY : R;
  docScrollTop : R;
  scrollHeight : R;
  clientHeight : R
}.

(** [style.width] of the progress bar. *)
Inductive Width : Type :=
| Unstyled
| Percent (n : Z).

(** The closure variable [lastScroll], the progress bar and whether the
    header carries the class [hide]; an element that [q] did not find is
    [None]. *)
Record State : Type := mkState {
  lastScroll : R;
  progressBar : option Width;
  header : option bool
}.

(** [window.scrollY || doc.scrollTop] *)
Definition scrollTopOf (m : Metrics) : R :=
  if JS.truthy (scrollY m) then scrollY m else docScrollTop m.

(** [pct] of [updateProgress]. *)
Definition pct (m : Metrics) : R :=
  let height := scrollHeight m - clientHeight m in
  if Rlt_dec 0 height then scrollTopOf m / height else 0.

(** [updateProgress()] (lines 426-442). *)
Definition updateProgress (m : Metrics) (s : State) : State :=
  let scrollTop := scrollTopOf m in
  let bar :=
    match progressBar s with
    | Some _ => Some (Percent (JS.Math_round (pct m * 100)))
    | None => None
    end in
  match header s with
  | None => {| lastScroll := lastScroll s; progressBar := bar; header := None |}
  | Some _ =>
      let hide :=
        if Rlt_dec (lastScroll s) scrollTop
        then (if Rlt_dec 200 scrollTop then true else false)
        else false in
      {| lastScroll := if Rle_dec scrollTop 0 then 0 else scrollTop;
         progressBar := bar;
         header := Some hide |}
  end.

End Nav.

(** *** Showcase carousel (lines 451-493) *)

Module Showcase.

Inductive Behavior : Type := Auto | Smooth.

(** The closure variable [index], the last [track.scrollTo] request and
    [aria-selected] of the dots, in document order. *)
Record State : Type := mkState {
  index : R;
  left : R;
  behavior : Behavior;
  selected : list bool
}.

(** [goto(i, opts)]; [len] is the number of items, [ndots] the number of
    dots and [width] the value of [track.clientWidth] at the call. *)
Definition goto (len ndots : nat) (width : R) (i : R) (instant : bool) : State :=
  let index1 := clamp i 0 (INR len - 1) in
  let x := index1 * width in
  {| index := index1;
     left := x;
     behavior := if instant then Auto else Smooth;
     selected := map (fun di => if Req_dec_T (INR di) index1 then true else false)
                     (seq 0 ndots) |}.

Inductive Event : Type :=
| ClickPrev
| ClickNext
| ClickDot (i : nat)
| ScrollSettled (scrollLeft : R)     (* the 100ms timer after the last scroll event *)
| KeyArrowRight
| KeyArrowLeft
| KeyOther.

(** The handlers of [setupShowcase]; [width] is [track.clientWidth] when
    the handler runs. *)
Definition step (len ndots : nat) (width : R) (st : State) (ev : Event) : State :=
  match ev with
  | ClickPrev => goto len ndots width (index st - 1) false
  | ClickNext => goto len ndots width (index st + 1) false
  | ClickDot i => goto len ndots width (INR i) false
  | ScrollSettled scrollLeft =>
      goto len ndots width (IZR (JS.Math_round (scrollLeft / width))) false
  | KeyArrowRight => goto len ndots width (index st + 1) false
  | KeyArrowLeft => goto len ndots width (index st - 1) false
  | KeyOther => st
  end.

(** [goto(0, { instant: true })], the last statement of [setupShowcase]. *)
Definition init (len ndots : nat) (width : R) : State := goto len ndots width 0 true.

Definition run (len ndots : nat) (width : R) (evs : list Event) (st : State) : State :=
  fold_left (step len ndots width) evs st.

End Showcase.

(** *** Magnetic hover (lines 539-562) *)

Module Magnetic.

(** [el.getBoundingClientRect()] *)
Record Rect : Type := mkRect { left : R; top : R; width : R; height : R }.

(** The transform string
    [translate3d(x px, y px, 6px) rotateX(rx deg) rotateY(ry deg)]. *)
Record Transform : Type := mkTransform {
  tx : R; ty : R; tz : R; rotateX : R; rotateY : R
}.

Definition sensitivity : R := 36.

(** [onMove(e)]: the new value of [el.style.transform]. *)
Definition onMove (r : Rect) (clientX clientY : R) : Transform :=
  let cx := left r + width r / 2 in
  let cy := top r + height r / 2 in
  let x := (clientX - cx) / sensitivity in
  let y := (clientY - cy) / sensitivity in
  {| tx := x; ty := y; tz := 6;
     rotateX := clamp (- y) (-8) 8;
     rotateY := clamp x (-8) 8 |}.

End Magnetic.

(** *** Scroll parallax (lines 1020-1038) *)

Module Parallax.

(** The value [update] stores in the custom property [--p] of a node, as a
    number; [top] and [height] are those of the node's bounding rectangle
    and [speed] is [Number(n.dataset.parallax)]. *)
Definition update (scrollerTop innerHeight top height : R) (speed : Numeric) : R :=
  let speed := num speed 0.2 in
  let offsetTop := top + scrollerTop in
  let center := offsetTop + height / 2 in
  let distance := scrollerTop + innerHeight / 2 - center in
  let p := clamp (distance / (innerHeight * 0.8) * speed) (-1) 1 in
  Rabs p.

End Parallax.

(** *** Form validation (lines 498-534) *)

Module Form.

Section Validation.

(** Strings are lists of UTF-16 code units; [isSpace] is the class of
    white space and line terminators, which [trim] strips and [\s]
    matches. *)
Variable char : Type.
Variable char_eqb : char -> char -> bool.
Variable isSpace : char -> bool.
Variable at_sign dot : char.

(** The elements of the pattern: a literal character, or [\S+]. *)
Inductive Atom : Type :=
| Literal (c : char)
| NonSpaces.

(** Whether a prefix of the string matches the pattern. *)
Fixpoint match_here (pat : list Atom) : list char -> bool :=
  match pat with
  | [] => fun _ => true
  | Literal c :: rest =>
      fun s =>
        match s with
        | c' :: s' => char_eqb c c' && match_here rest s'
        | [] => false
        end
  | NonSpaces :: rest =>
      fix more (s : list char) : bool :=
        match s with
        | c :: s' => negb (isSpace c) && (match_here rest s' || more s')
        | [] => false
        end
  end.

(** [pattern.test(s)] for a pattern without anchors: a match may start
    anywhere. *)
Fixpoint test (pat : list Atom) (s : list char) : bool :=
  match_here pat s
  || match s with
     | [] => false
     | _ :: s' => test pat s'
     end.

(** [/\S+@\S+\.\S+/] *)
Definition emailPattern : list Atom :=
  [NonSpaces; Literal at_sign; NonSpaces; Literal dot; NonSpaces].

Fixpoint trimStart (s : list char) : list char :=
  match s with
  | c :: s' => if isSpace c then trimStart s' else s
  | [] => []
  end.

(** [String.prototype.trim] *)
Definition trim (s : list char) : list char :=
  rev (trimStart (rev (trimStart s))).

(** The values [fd.get] returns for the three fields; [None] is [null]. *)
Record Fields : Type := mkFields {
  name : option (list char);
  email : option (list char);
  message : option (list char)
}.

(** [String(fd.get(key) || '').trim()] *)
Definition field (v : option (list char)) : list char :=
  trim (match v with Some s => s | None => [] end).

(** What the submit handler puts into the status line. *)
Inductive Outcome : Type :=
| NameMissing          (* 'Please enter your name' *)
| EmailInvalid         (* 'Please enter a valid email' *)
| MessageTooShort      (* 'Tell us a bit more about the project' *)
| Sending.             (* the request goes out *)

(** The submit handler up to the point where it sends. *)
Definition submit (fd : Fields) : Outcome :=
  let name := field (name fd) in
  let email := field (email fd) in
  let message := field (message fd) in
  match name with
  | [] => NameMissing
  | _ :: _ =>
      if negb (test emailPattern email) then EmailInvalid
      else
        match message with
        | [] => MessageTooShort
        | _ :: _ => if Nat.ltb (length message) 12 then MessageTooShort else Sending
        end
  end.

End Validation.

Arguments Literal {char} c.
Arguments NonSpaces {char}.
Arguments match_here {char} char_eqb isSpace pat s : rename.
Arguments test {char} char_eqb isSpace pat s.
Arguments emailPattern {char} at_sign dot.
Arguments trimStart {char} isSpace s.
Arguments trim {char} isSpace s.
Arguments mkFields {char} name email message.
Arguments name {char} _.
Arguments email {char} _.
Arguments message {char} _.
Arguments field {char} isSpace v.
Arguments submit {char} char_eqb isSpace at_sign dot fd.

End Form.

(** Sample form input: code units as numbers. *)

Module FormSample.

(** White space and line terminators. *)
Definition isSpace (c : N) : bool :=
  existsb (N.eqb c)
          [9; 10; 11; 12; 13; 32; 160; 5760; 8232; 8233; 8239; 8287; 12288; 65279]%N
  || (N.leb 8192 c && N.leb c 8202).

Definition at_sign : N := 64%N.

Definition dot : N := 46%N.

(** "see a@b.c" *)
Definition address : list N := [115; 101; 101; 32; 97; 64; 98; 46; 99]%N.

(** "  Ada " *)
Definition padded : list N := [32; 32; 65; 100; 97; 32]%N.

End FormSample.

(** *** Page start-up (lines 848-980) *)

Module Boot.

(** The steps the entry point can run. *)
Inductive Setup : Type :=
| Year                 (* the footer year *)
| SplitWords
| SplitChars
| Navigation           (* setupNavigation *)
| ShowcaseSetup        (* setupShowcase *)
| FormSetup            (* setupForm *)
| MagneticSetup        (* setupMagnetic *)
| UnderlineHover       (* setupUnderlineHover *)
| InjectParticles      (* injectParticles *)
| ScrollSetup          (* Scroll.setup *)
| GSAPAnimations       (* setupGSAPAnimations *)
| Three                (* setupThree *)
| Wiring               (* the event wiring, interval and greeting at the end of init *)
| Notice.              (* Toast.create with a notice *)

Definition Setup_eq_dec : forall a b : Setup, {a = b} + {a <> b}.
Proof. decide equality. Defined.

(** Run steps in order until one throws: the steps completed, and whether
    all were. *)
Fixpoint attempt (throws : Setup -> bool) (l : list Setup) : list Setup * bool :=
  match l with
  | [] => ([], true)
  | s :: rest =>
      if throws s then ([], false)
      else let (done, ok) := attempt throws rest in (s :: done, ok)
  end.

(** The body of [init]. *)
Definition initSteps : list Setup :=
  [Year; SplitWords; SplitChars; Navigation; ShowcaseSetup; FormSetup;
   MagneticSetup; UnderlineHover; InjectParticles; ScrollSetup; GSAPAnimations;
   Three; Wiring].

(** The steps of the entry point when WebGL is not supported. *)
Definition degradedSteps : list Setup :=
  [Notice; ScrollSetup; GSAPAnimations; Navigation; ShowcaseSetup; FormSetup;
   MagneticSetup; UnderlineHover; InjectParticles].

(** The steps of the inner [try] of the entry point. *)
Definition fallbackSteps : list Setup :=
  [Navigation; ShowcaseSetup; FormSetup; MagneticSetup; UnderlineHover;
   GSAPAnimations; InjectParticles; ScrollSetup].

(** The entry point (lines 942-980): the steps completed, in order. *)
Definition entry (webgl : bool) (throws : Setup -> bool) : list Setup :=
  if webgl then
    let (done, ok) := attempt throws initSteps in
    if ok then done
    else
      let (noticed, ok1) := attempt throws [Notice] in
      if ok1 then done ++ noticed ++ fst (attempt throws fallbackSteps)
      else done ++ noticed
  else fst (attempt throws degradedSteps).

(** The hook-ups of the user interface. *)
Definition uiSteps : list Setup :=
  [Navigation; ShowcaseSetup; FormSetup; MagneticSetup; UnderlineHover;
   InjectParticles; ScrollSetup; GSAPAnimations].

End Boot.

(** *** Counting events of the engine *)

Definition ticks (evs : list Event) : nat :=
  length (filter (fun ev => match ev with Tick _ => true | _ => false end) evs).

Definition disposals (evs : list Event) : nat :=
  length (filter (fun ev => match ev with Disposed => true | _ => false end) evs).

(** The clock readings of the frames in [evs] never go back, starting from
    the reading [t]. *)
Fixpoint clockNeverGoesBack (t : R) (evs : list Event) : Prop :=
  match evs with
  | [] => True
  | Tick f :: rest => t <= now_loop f /\ clockNeverGoesBack (now_loop f) rest
  | _ :: rest => clockNeverGoesBack t rest
  end.

(** * Properties *)

(** ** The numeric helpers *)

Lemma clamp_bounds (v a b : R) : a <= b -> a <= clamp v a b <= b.
Proof.
  intros Hab. unfold clamp. split.
  - apply Rmax_l.
  - apply Rmax_lub; [exact Hab | apply Rmin_l].
Qed.

Lemma clamp_mono (v w a b : R) : v <= w -> clamp v a b <= clamp w a b.
Proof.
  intros Hvw. unfold clamp.
  apply Rle_max_compat_l, Rle_min_compat_l, Hvw.
Qed.

Lemma clamp_above (v a b : R) : a <= b -> b <= v -> clamp v a b = b.
Proof.
  intros Hab Hbv. unfold clamp.
  rewrite (Rmin_left b v Hbv). apply Rmax_right, Hab.
Qed.

Lemma clamp_below (v a b : R) : a <= b -> v <= a -> clamp v a b = a.
Proof.
  intros Hab Hva. unfold clamp.
  apply Rmax_left. apply Rle_trans with v; [apply Rmin_r | exact Hva].
Qed.

Lemma cube_mono (u v : R) : 0 <= u -> u <= v -> u ^ 3 <= v ^ 3.
Proof. intros Hu Huv. apply pow_incr. split; assumption. Qed.

Lemma easeOutCubic_bounds (t : R) : 0 <= t <= 1 -> 0 <= easeOutCubic t <= 1.
Proof.
  intros [H0 H1]. unfold easeOutCubic.
  assert (Hlo : 0 <= (1 - t) ^ 3) by (apply pow_le; lra).
  assert (Hhi : (1 - t) ^ 3 <= 1 ^ 3) by (apply cube_mono; lra).
  rewrite pow1 in Hhi. lra.
Qed.

Lemma easeOutCubic_mono (s t : R) :
  s <= t -> t <= 1 -> easeOutCubic s <= easeOutCubic t.
Proof.
  intros Hst Ht. unfold easeOutCubic.
  assert (H : (1 - t) ^ 3 <= (1 - s) ^ 3) by (apply cube_mono; lra).
  lra.
Qed.

Lemma easeOutCubic_0 : easeOutCubic 0 = 0.
Proof. unfold easeOutCubic. lra. Qed.

Lemma easeOutCubic_1 : easeOutCubic 1 = 1.
Proof. unfold easeOutCubic. lra. Qed.


Lemma lerp_mono (a b s t : R) : a <= b -> s <= t -> lerp a b s <= lerp a b t.
Proof. intros Hab Hst. unfold lerp. nra. Qed.


Lemma ringScale_antitone (d1 d2 : R) : d1 <= d2 -> ringScale d2 <= ringScale d1.
Proof.
  intros H. unfold ringScale.
  apply lerp_mono; [lra |].
  apply easeOutCubic_mono.
  - apply clamp_mono. lra.
  - apply clamp_bounds. lra.
Qed.

Lemma ringScale_touching : ringScale 0 = 1.14.
Proof.
  unfold ringScale.
  replace (1 - 0 * 0.26) with 1 by lra.
  rewrite clamp_above by lra.
  rewrite easeOutCubic_1. unfold lerp. lra.
Qed.

Lemma ringScale_far (d : R) : 1 / 0.26 <= d -> ringScale d = 0.98.
Proof.
  intros H. unfold ringScale.
  rewrite clamp_below by lra.
  rewrite easeOutCubic_0. unfold lerp. lra.
Qed.

Lemma updateTorus_scale (p : Vector3) (m : Mesh) :
  scale (updateTorus p m) = setScalar (ringScale (distanceTo (position m) p)).
Proof. reflexivity. Qed.

Lemma updateTorus_index (p : Vector3) (m : Mesh) : index (updateTorus p m) = index m.
Proof. reflexivity. Qed.

Lemma updateTorus_color (p : Vector3) (m : Mesh) : color (updateTorus p m) = color m.
Proof. reflexivity. Qed.

(** ** JavaScript arithmetic *)

Lemma Int_part_unit (x : R) : 0 <= x < 1 -> Int_part x = 0%Z.
Proof.
  intros [H0 H1]. symmetry. apply Int_part_spec. simpl. lra.
Qed.

Lemma rem_1_small (x : R) : 0 <= x < 1 -> JS.rem x 1 = x.
Proof.
  intros H. unfold JS.rem, JS.trunc.
  replace (x / 1) with x by lra.
  destruct (Rle_dec 0 x) as [_ | Hneg]; [| lra].
  rewrite (Int_part_unit x H). simpl. lra.
Qed.

Lemma Math_round_IZR (n : Z) : JS.Math_round (IZR n) = n.
Proof.
  unfold JS.Math_round. symmetry. apply Int_part_spec. lra.
Qed.

Lemma Math_round_INR (n : nat) : JS.Math_round (INR n) = Z.of_nat n.
Proof. rewrite INR_IZR_INZ. apply Math_round_IZR. Qed.

Lemma Math_round_near (v : R) :
  v - / 2 < IZR (JS.Math_round v) <= v + / 2.
Proof.
  unfold JS.Math_round. destruct (base_Int_part (v + / 2)) as [Hle Hgt]. lra.
Qed.


Lemma truthy_0 : JS.truthy 0 = false.
Proof.
  unfold JS.truthy. destruct (Req_dec_T 0 0) as [_ | H]; [reflexivity | contradiction].
Qed.

Lemma truthy_nonzero (x : R) : x <> 0 -> JS.truthy x = true.
Proof.
  intros H. unfold JS.truthy.
  destruct (Req_dec_T x 0) as [E | _]; [contradiction | reflexivity].
Qed.

(** ** The ray cast against the plane z = 0 *)

Lemma distanceToPlane_hit (r : Ray) (t : R) :
  distanceToPlane r planeZ = Some t -> 0 <= t /\ z (at_ r t) = 0.
Proof.
  unfold distanceToPlane, distanceToPoint, dot, planeZ. simpl.
  destruct (Req_dec_T _ 0) as [Hpar | Hcross].
  - destruct (Req_dec_T _ 0) as [Hon | Hoff]; [| discriminate].
    intros [= <-]. split; lra.
  - destruct (Rle_dec 0 _) as [Hfront | Hbehind]; [| discriminate].
    intros [= <-]. split; [exact Hfront |].
    assert (Hd : z (ray_direction r) <> 0) by lra.
    field_simplify_eq; [lra | exact Hd].
Qed.

Lemma distanceToPlane_miss (r : Ray) :
  distanceToPlane r planeZ = None -> ~ meetsPlaneZ r.
Proof.
  unfold distanceToPlane, distanceToPoint, dot, planeZ, meetsPlaneZ. simpl.
  destruct (Req_dec_T _ 0) as [Hpar | Hcross].
  - destruct (Req_dec_T _ 0) as [Hon | Hoff]; [discriminate |].
    intros _ [t [_ Ht]].
    assert (Hd : z (ray_direction r) = 0) by lra.
    rewrite Hd in Ht. lra.
  - destruct (Rle_dec 0 _) as [Hfront | Hbehind]; [discriminate |].
    intros _ [t [Ht0 Ht]]. apply Hbehind.
    assert (Hd : z (ray_direction r) <> 0) by lra.
    replace (- (x (ray_origin r) * 0 + y (ray_origin r) * 0 + z (ray_origin r) * 1 + 0)
             / (0 * x (ray_direction r) + 0 * y (ray_direction r) + 1 * z (ray_direction r)))
      with t; [exact Ht0 |].
    field_simplify_eq; [lra | exact Hd].
Qed.

Lemma meetsPlaneZ_distanceToPlane (r : Ray) :
  meetsPlaneZ r <-> exists t, distanceToPlane r planeZ = Some t.
Proof.
  split.
  - intros Hmeet. destruct (distanceToPlane r planeZ) as [t |] eqn:E.
    + exists t. reflexivity.
    + exfalso. exact (distanceToPlane_miss r E Hmeet).
  - intros [t Ht]. exists t. apply distanceToPlane_hit, Ht.
Qed.

(** ** The performance monitor *)


Lemma frameTick_sample (r : TrianglesSource) (t : R) (h : option R) (p : PerfState) :
  1000 <= t - last p ->
  frameTick r t h p =
  let fps1 := JS.Math_round ((INR (S (frames p)) * 1000) / (t - last p)) in
  {| last := t; frames := 0; fps := fps1;
     fpsEl := setText (fpsEl p) (Number (IZR fps1));
     trisEl := showTriangles r (trisEl p);
     memEl := showMemory h (memEl p) |}.
Proof.
  intros H. unfold frameTick.
  destruct (Rle_dec 1000 (t - last p)) as [_ | Hlt]; [reflexivity | contradiction].
Qed.








(** C6, as stated, fails: a renderer whose [info.render] carries no
    triangle count makes the sample show the number 0, not the marker. *)
Lemma missing_triangle_count_shown_as_zero :
  emits 1000 Sample.hud
  /\ trisEl (frameTick TrianglesUndefined 1000 None Sample.hud) = Some (Number 0)
  /\ trisEl (frameTick TrianglesUndefined 1000 None Sample.hud) <> Some Dash.
Proof.
  assert (Hemit : emits 1000 Sample.hud) by (unfold emits; simpl; lra).
  assert (Hshow : trisEl (frameTick TrianglesUndefined 1000 None Sample.hud)
                  = Some (Number 0)).
  { rewrite frameTick_sample by exact Hemit. reflexivity. }
  split; [exact Hemit | split; [exact Hshow |]].
  rewrite Hshow. discriminate.
Qed.

(** Without a renderer the triangle field keeps what it showed before. *)
Lemma triangle_field_untouched_without_renderer (t : R) (h : option R) (p : PerfState) :
  trisEl (frameTick NoRenderer t h p) = trisEl p.
Proof.
  unfold frameTick. destruct (Rle_dec 1000 (t - last p)); reflexivity.
Qed.

(** C6 (amended): when a sample is emitted, the memory field shows the
    marker if the heap size is missing or zero, and the triangle field shows
    the marker if reading the count from the renderer raises; a count that
    reads as undefined is shown as 0, and without a renderer the triangle
    field is not written. *)
Theorem telemetry_unavailable_fields :
  forall (r : TrianglesSource) (h : option R) (t : R) (p : PerfState),
    emits t p ->
    (h = None \/ h = Some 0 ->
       memEl (frameTick r t h p) = setText (memEl p) Dash)
    /\ (r = InfoMissing ->
       trisEl (frameTick r t h p) = setText (trisEl p) Dash)
    /\ (r = TrianglesUndefined ->
       trisEl (frameTick r t h p) = setText (trisEl p) (Number 0))
    /\ (r = NoRenderer ->
       trisEl (frameTick r t h p) = trisEl p).
Proof.
  intros r h t p Hemit.
  rewrite (frameTick_sample r t h p Hemit). cbv zeta. cbn [memEl trisEl].
  repeat split.
  - intros [-> | ->]; unfold showMemory; [reflexivity |].
    rewrite truthy_0. reflexivity.
  - intros ->. reflexivity.
  - intros ->. reflexivity.
  - intros ->. reflexivity.
Qed.

Lemma telemetry_unavailable_fields_witness :
  memEl (frameTick InfoMissing 1000 None Sample.hud) = Some Dash
  /\ trisEl (frameTick InfoMissing 1000 None Sample.hud) = Some Dash.
Proof.
  assert (Hemit : emits 1000 Sample.hud) by (unfold emits; simpl; lra).
  destruct (telemetry_unavailable_fields InfoMissing None 1000 Sample.hud Hemit)
    as (Hmem & Htris & _).
  split.
  - rewrite Hmem by (left; reflexivity). reflexivity.
  - rewrite Htris by reflexivity. reflexivity.
Defined.

(** ** The ring colours *)

Lemma ringHue_no_wrap (i : nat) :
  (i < count)%nat ->
  ringHue i = 0.55 + INR i / 9 * 0.25 /\ 0.55 <= ringHue i < 0.55 + 0.25.
Proof.
  intros Hi. unfold count in Hi.
  assert (Hlo : 0 <= INR i) by apply pos_INR.
  assert (Hhi : INR i <= INR 8) by (apply le_INR; lia).
  rewrite (INR_IZR_INZ 8) in Hhi. simpl in Hhi.
  unfold ringHue, count. rewrite (INR_IZR_INZ 9). simpl IZR.
  rewrite rem_1_small by lra. lra.
Qed.

Lemma buildTori_nth (i : nat) :
  (i < count)%nat -> nth_error buildTori i = Some (buildTorus i).
Proof.
  intros Hi. unfold buildTori.
  apply map_nth_error. rewrite nth_error_seq.
  apply Nat.ltb_lt in Hi. rewrite Hi. reflexivity.
Qed.

(** ** The engine *)

Section EngineProperties.

Variable View : Type.
Variable initialView : View.
Variable controls_update : View -> View.
Variable setFromCamera : Vector2 -> Camera View -> Ray.

Implicit Types (st : Engine View) (f : Frame) (win : Window) (e : PointerEvent).

Local Abbreviation tick := (renderLoop controls_update).
Local Abbreviation steps := (run controls_update setFromCamera).
Local Abbreviation boot := (setupThree initialView).

Lemma renderLoop_torusGroup f st :
  torusGroup (tick f st) = map (updateTorus (pointer3D st)) (torusGroup st).
Proof. reflexivity. Qed.

Lemma run_app (evs1 evs2 : list Event) st :
  steps (evs1 ++ evs2) st = steps evs2 (steps evs1 st).
Proof. unfold run. apply fold_left_app. Qed.

Lemma run_snoc (evs : list Event) (ev : Event) st :
  steps (evs ++ [ev]) st = step controls_update setFromCamera (steps evs st) ev.
Proof. rewrite run_app. reflexivity. Qed.

(** A property of the booted engine that every event preserves holds
    after every sequence of events. *)
Lemma run_invariant (P : Engine View -> Prop) win t0 p :
  P (boot win t0 p) ->
  (forall st ev, P st -> P (step controls_update setFromCamera st ev)) ->
  forall evs, P (steps evs (boot win t0 p)).
Proof.
  intros Hinit Hstep evs.
  induction evs as [| ev evs IH] using rev_ind.
  - exact Hinit.
  - rewrite run_snoc. apply Hstep, IH.
Qed.

(** The distance between two points and the scale for a distance, in
    elementary operations. *)
Local Abbreviation apart a b :=
  (sqrt ((x a - x b) * (x a - x b)
         + (y a - y b) * (y a - y b)
         + (z a - z b) * (z a - z b))).
Local Abbreviation response d :=
  (0.98 + (1.14 - 0.98) * (1 - (1 - Rmax 0 (Rmin 1 (1 - d * 0.26))) ^ 3)).

Lemma ringScale_response (d : R) : ringScale d = response d.
Proof. reflexivity. Qed.

Lemma renderLoop_ring f st (i : nat) (m : Mesh) :
  nth_error (torusGroup st) i = Some m ->
  nth_error (torusGroup (tick f st)) i = Some (updateTorus (pointer3D st) m).
Proof.
  intros H. rewrite renderLoop_torusGroup. apply map_nth_error, H.
Qed.

(** C1: in every frame each ring gets the uniform scale
    lerp(0.98, 1.14, easeOutCubic(clamp(1 - d * 0.26, 0, 1))), where d is
    the Euclidean distance from the ring position to the pointer world
    point, that is 0.98 + 0.16 (1 - (1 - max(0, min(1, 1 - 0.26 d)))^3);
    at d = 0 the scale is 1.14, from d = 1/0.26 on it is 0.98, and of two
    rings the one further from the pointer never gets the larger scale. *)
Theorem ring_scale_follows_pointer_distance :
  (forall f st i m,
      nth_error (torusGroup st) i = Some m ->
      exists m',
        nth_error (torusGroup (renderLoop controls_update f st)) i = Some m'
        /\ scale m'
           = mkVector3 (response (apart (position m) (pointer3D st)))
                       (response (apart (position m) (pointer3D st)))
                       (response (apart (position m) (pointer3D st)))
        /\ response (apart (position m) (pointer3D st))
           = lerp 0.98 1.14
               (easeOutCubic
                  (clamp (1 - apart (position m) (pointer3D st) * 0.26) 0 1))
        /\ (apart (position m) (pointer3D st) = 0 ->
            scale m' = mkVector3 1.14 1.14 1.14)
        /\ (1 / 0.26 <= apart (position m) (pointer3D st) ->
            scale m' = mkVector3 0.98 0.98 0.98))
  /\ (forall f1 st1 i1 m1 m1' f2 st2 i2 m2 m2',
        nth_error (torusGroup st1) i1 = Some m1 ->
        nth_error (torusGroup (renderLoop controls_update f1 st1)) i1 = Some m1' ->
        nth_error (torusGroup st2) i2 = Some m2 ->
        nth_error (torusGroup (renderLoop controls_update f2 st2)) i2 = Some m2' ->
        apart (position m1) (pointer3D st1) <= apart (position m2) (pointer3D st2) ->
        x (scale m2') <= x (scale m1')).
Proof.
  split.
  - intros f st i m Hm. exists (updateTorus (pointer3D st) m).
    split; [apply renderLoop_ring, Hm |].
    rewrite updateTorus_scale.
    change (distanceTo (position m) (pointer3D st))
      with (apart (position m) (pointer3D st)).
    set (d := apart (position m) (pointer3D st)).
    split; [rewrite ringScale_response; reflexivity |].
    split; [reflexivity |].
    split.
    + intros Hd. rewrite Hd, ringScale_touching. reflexivity.
    + intros Hd. rewrite (ringScale_far d Hd). reflexivity.
  - intros f1 st1 i1 m1 m1' f2 st2 i2 m2 m2' H1 H1' H2 H2' Hle.
    rewrite (renderLoop_ring f1 st1 i1 m1 H1) in H1'. injection H1' as <-.
    rewrite (renderLoop_ring f2 st2 i2 m2 H2) in H2'. injection H2' as <-.
    rewrite !updateTorus_scale. cbn [setScalar x].
    apply ringScale_antitone. exact Hle.
Qed.



Lemma step_torusGroup st ev :
  torusGroup (step controls_update setFromCamera st ev) = torusGroup st
  \/ exists p, torusGroup (step controls_update setFromCamera st ev)
               = map (updateTorus p) (torusGroup st).
Proof.
  destruct ev as [f | win | e win |]; simpl.
  - right. exists (pointer3D st). reflexivity.
  - left. reflexivity.
  - left. reflexivity.
  - left. reflexivity.
Qed.


(** *** Resize *)

Lemma resize_coherent win st : coherent (resize win st).
Proof. split; reflexivity. Qed.

Lemma step_coherent st ev :
  coherent st -> coherent (step controls_update setFromCamera st ev).
Proof.
  intros H. destruct ev as [f | win | e win |]; simpl.
  - exact H.
  - apply resize_coherent.
  - exact H.
  - exact H.
Qed.

(** C2: for a window of positive height and a positive device pixel
    ratio, after every resize the pixel ratio is min(devicePixelRatio, 2),
    the surface has the window size, the camera aspect is width / height
    and the projection is computed from that aspect, all in the one call;
    so in every state the engine reaches, and hence at every frame, the
    aspect, the projection and the surface size agree. *)
Theorem resize_sets_ratio_size_and_aspect :
  (forall win st d,
      devicePixelRatio win = Some d ->
      0 < d ->
      0 < innerHeight win ->
      pixelRatio (renderer (resize win st)) = Rmin d 2
      /\ width (renderer (resize win st)) = innerWidth win
      /\ height (renderer (resize win st)) = innerHeight win
      /\ aspect (camera (resize win st)) = innerWidth win / innerHeight win
      /\ projection (camera (resize win st)) = innerWidth win / innerHeight win)
  /\ (forall win t0 p evs,
        0 < innerHeight win ->
        (forall w, In (Resized w) evs -> 0 < innerHeight w) ->
        aspect (camera (steps evs (boot win t0 p)))
        = width (renderer (steps evs (boot win t0 p)))
          / height (renderer (steps evs (boot win t0 p)))
        /\ projection (camera (steps evs (boot win t0 p)))
           = aspect (camera (steps evs (boot win t0 p)))
        /\ 0 < height (renderer (steps evs (boot win t0 p)))).
Proof.
  split.
  - intros win st d Hd Hpos _. repeat split.
    simpl. unfold DPR, pixelRatioLimit. rewrite Hd. simpl.
    rewrite truthy_nonzero by lra. reflexivity.
  - intros win t0 p evs Hwin Hevs.
    assert (Hcoh : coherent (steps evs (boot win t0 p))).
    { apply (run_invariant (fun st => coherent st)).
      - split; reflexivity.
      - intros st ev. apply step_coherent. }
    destruct Hcoh as [Ha Hp]. split; [exact Ha | split; [exact Hp |]].
    clear Ha Hp.
    revert Hevs. induction evs as [| ev evs IH] using rev_ind; intros Hevs.
    + exact Hwin.
    + rewrite run_snoc.
      assert (Hprev : 0 < height (renderer (steps evs (boot win t0 p)))).
      { apply IH. intros w Hw. apply Hevs, in_or_app. left. exact Hw. }
      destruct ev as [f | w | e w |]; simpl; try exact Hprev.
      apply Hevs, in_or_app. right. left. reflexivity.
Qed.

(** *** The frame clock *)

Lemma renderLoop_lastTime f st : lastTime (tick f st) = now_loop f.
Proof. reflexivity. Qed.

Lemma renderLoop_elapsed f st :
  elapsed (motion (tick f st)) = elapsed (motion st) + frame_dt f st.
Proof. reflexivity. Qed.

Lemma renderLoop_renderCalls f st :
  renderCalls (renderer (tick f st)) = S (renderCalls (renderer st)).
Proof. reflexivity. Qed.

(** C4 (amended): the dt of a frame is the plain difference between the
    current and the previous clock reading, and the scene clock advances
    by it; it is non-negative exactly when the clock did not go back, and
    nothing clamps it. *)
Theorem frame_dt_is_raw_difference :
  forall f st,
    frame_dt f st = now_loop f - lastTime st
    /\ elapsed (motion (tick f st)) = elapsed (motion st) + (now_loop f - lastTime st)
    /\ uTime (motion (tick f st)) = elapsed (motion st) + (now_loop f - lastTime st)
    /\ lastTime (tick f st) = now_loop f
    /\ (lastTime st <= now_loop f -> 0 <= frame_dt f st)
    /\ (now_loop f < lastTime st -> frame_dt f st < 0).
Proof.
  intros f st. unfold frame_dt. repeat split.
  - intros H. lra.
  - intros H. lra.
Qed.

(** *** Disposal *)

Lemma disposeCalls_updateTorus (q : Vector3) (ms : list Mesh) :
  disposeCalls (map (updateTorus q) ms) = disposeCalls ms.
Proof.
  unfold disposeCalls. f_equal.
  induction ms as [| m ms IH]; simpl; [reflexivity |].
  rewrite IH. reflexivity.
Qed.

Lemma disposeCalls_length (ms : list Mesh) :
  length (disposeCalls ms) = (3 + 2 * length ms)%nat.
Proof.
  unfold disposeCalls. rewrite length_app. simpl length at 1.
  rewrite (flat_map_constant_length (c := 2)) by reflexivity. lia.
Qed.

Lemma step_torusGroup_length st ev :
  length (torusGroup (step controls_update setFromCamera st ev))
  = length (torusGroup st).
Proof.
  destruct (step_torusGroup st ev) as [-> | [q ->]];
    [reflexivity | apply length_map].
Qed.

Lemma run_torusGroup_length win t0 p evs :
  length (torusGroup (steps evs (boot win t0 p))) = count.
Proof.
  apply (run_invariant (fun st => length (torusGroup st) = count)).
  - reflexivity.
  - intros st ev IH. rewrite step_torusGroup_length. exact IH.
Qed.

(** C5 (amended): dispose() only issues release calls; it sets no
    disposed state and does not stop the loop.  A tick delivered after
    dispose() runs the same frame as on a live engine: the scene clock
    advances, one draw call is issued, the next frame is requested, and
    no release call is made. *)
Theorem ticks_continue_after_dispose :
  forall f st,
    tick f (dispose st) = dispose (tick f st)
    /\ renderCalls (renderer (tick f (dispose st)))
       = S (renderCalls (renderer (dispose st)))
    /\ requested (tick f (dispose st)) = S (requested (dispose st))
    /\ elapsed (motion (tick f (dispose st)))
       = elapsed (motion (dispose st)) + frame_dt f (dispose st)
    /\ released (tick f (dispose st)) = released (dispose st).
Proof.
  intros f st. repeat split.
  unfold dispose at 2. rewrite renderLoop_torusGroup, disposeCalls_updateTorus.
  reflexivity.
Qed.

Lemma run_ring_indices win t0 p evs :
  map index (torusGroup (steps evs (boot win t0 p))) = seq 0 9.
Proof.
  apply (run_invariant (fun st => map index (torusGroup st) = seq 0 9)).
  - reflexivity.
  - intros st ev IH.
    destruct (step_torusGroup st ev) as [-> | [q ->]]; [exact IH |].
    rewrite map_map. exact IH.
Qed.

Lemma ring_releases_by_index (ms : list Mesh) :
  flat_map (fun m => [RingGeometry (index m); RingMaterial (index m)]) ms
  = flat_map (fun i => [RingGeometry i; RingMaterial i]) (map index ms).
Proof.
  induction ms as [| m ms IH]; [reflexivity |].
  simpl. rewrite IH. reflexivity.
Qed.

(** The release calls of one disposal of the nine rings. *)
Local Abbreviation allReleases :=
  [TheRenderer; ParticlesGeometry; ParticlesMaterial;
   RingGeometry 0; RingMaterial 0; RingGeometry 1; RingMaterial 1;
   RingGeometry 2; RingMaterial 2; RingGeometry 3; RingMaterial 3;
   RingGeometry 4; RingMaterial 4; RingGeometry 5; RingMaterial 5;
   RingGeometry 6; RingMaterial 6; RingGeometry 7; RingMaterial 7;
   RingGeometry 8; RingMaterial 8].

(** C8 (amended): dispose() has no guard: every call makes the same
    release calls, on the renderer, the particle geometry and material and
    then the geometry and material of each ring in turn, and changes
    nothing else; on the engine these are 21 calls, and a second call
    repeats all 21 of the first. *)
Theorem dispose_repeats_releases :
  (forall st,
      dispose st
      = {| renderer := renderer st;
           camera := camera st;
           torusGroup := torusGroup st;
           pointer := pointer st;
           pointer3D := pointer3D st;
           motion := motion st;
           lastTime := lastTime st;
           perf := perf st;
           released :=
             released st
             ++ [TheRenderer; ParticlesGeometry; ParticlesMaterial]
             ++ flat_map (fun m => [RingGeometry (index m); RingMaterial (index m)])
                         (torusGroup st);
           requested := requested st |}
      /\ released (dispose (dispose st))
         = released st
           ++ ([TheRenderer; ParticlesGeometry; ParticlesMaterial]
               ++ flat_map (fun m => [RingGeometry (index m); RingMaterial (index m)])
                           (torusGroup st))
           ++ ([TheRenderer; ParticlesGeometry; ParticlesMaterial]
               ++ flat_map (fun m => [RingGeometry (index m); RingMaterial (index m)])
                           (torusGroup st)))
  /\ (forall win t0 p evs,
        released (dispose (steps evs (boot win t0 p)))
        = released (steps evs (boot win t0 p)) ++ allReleases
        /\ released (dispose (dispose (steps evs (boot win t0 p))))
           = released (steps evs (boot win t0 p)) ++ allReleases ++ allReleases).
Proof.
  split.
  - intros st. split; [reflexivity |].
    unfold dispose. cbn [released torusGroup]. unfold disposeCalls.
    rewrite <- app_assoc. reflexivity.
  - intros win t0 p evs.
    set (st := steps evs (boot win t0 p)).
    assert (Hcalls : disposeCalls (torusGroup st) = allReleases).
    { unfold disposeCalls. rewrite ring_releases_by_index.
      unfold st. rewrite run_ring_indices. reflexivity. }
    split.
    + unfold dispose. cbn [released]. rewrite Hcalls. reflexivity.
    + unfold dispose. cbn [released torusGroup]. rewrite Hcalls.
      rewrite <- app_assoc. reflexivity.
Qed.

(** *** The pointer *)

(** C7: a pointer-move event whose view ray has no point on the plane
    z = 0 leaves the pointer world point as it was; an event that changes
    it has a ray that meets the plane, and the new point lies on the ray
    and on the plane. *)
Theorem pointer_kept_when_ray_misses_plane :
  forall e win st,
    (~ meetsPlaneZ (pointerRay setFromCamera e win st) ->
       pointer3D (onPointerMove setFromCamera e win st) = pointer3D st)
    /\ (pointer3D (onPointerMove setFromCamera e win st) <> pointer3D st ->
       meetsPlaneZ (pointerRay setFromCamera e win st))
    /\ (meetsPlaneZ (pointerRay setFromCamera e win st) ->
       exists t, 0 <= t
         /\ pointer3D (onPointerMove setFromCamera e win st)
            = at_ (pointerRay setFromCamera e win st) t
         /\ z (pointer3D (onPointerMove setFromCamera e win st)) = 0).
Proof.
  intros e win st.
  change (pointer3D (onPointerMove setFromCamera e win st))
    with (intersectPlane (pointerRay setFromCamera e win st) planeZ (pointer3D st)).
  unfold intersectPlane.
  destruct (distanceToPlane (pointerRay setFromCamera e win st) planeZ)
    as [t |] eqn:E.
  - destruct (distanceToPlane_hit _ _ E) as [Ht Hz].
    split; [| split].
    + intros Hmiss. exfalso. apply Hmiss. exists t. split; assumption.
    + intros _. exists t. split; assumption.
    + intros _. exists t. repeat split; assumption.
  - pose proof (distanceToPlane_miss _ E) as Hmiss.
    split; [| split].
    + intros _. reflexivity.
    + intros Hchanged. exfalso. apply Hchanged. reflexivity.
    + intros Hmeet. exfalso. exact (Hmiss Hmeet).
Qed.

(** *** The ring colours *)

Lemma run_ring_colors win t0 p evs :
  map (fun m => (index m, color m)) (torusGroup (steps evs (boot win t0 p)))
  = map (fun m => (index m, color m)) buildTori.
Proof.
  apply (run_invariant
           (fun st => map (fun m => (index m, color m)) (torusGroup st)
                      = map (fun m => (index m, color m)) buildTori)).
  - reflexivity.
  - intros st ev IH.
    destruct (step_torusGroup st ev) as [-> | [q ->]]; [exact IH |].
    rewrite map_map. exact IH.
Qed.

(** C9: the ring built for index i, 0 <= i < 9, has the hue
    (0.55 + (i / 9) * 0.25) mod 1, a function of i alone; the hues run
    through the arc from 0.55 to 0.55 + 0.25 without wrapping, and no
    event changes the index or the colour of a ring. *)
Theorem ring_hue_by_index :
  (forall i, (i < 9)%nat ->
      exists m,
        nth_error buildTori i = Some m
        /\ index m = i
        /\ hue (color m) = JS.rem (0.55 + (INR i / 9) * 0.25) 1
        /\ hue (color m) = 0.55 + (INR i / 9) * 0.25
        /\ 0.55 <= hue (color m) < 0.55 + 0.25)
  /\ (forall win t0 p evs,
        map (fun m => (index m, hue (color m)))
            (torusGroup (steps evs (boot win t0 p)))
        = map (fun i => (i, JS.rem (0.55 + (INR i / 9) * 0.25) 1)) (seq 0 9)).
Proof.
  assert (Hnine : INR count = 9).
  { unfold count. rewrite INR_IZR_INZ. reflexivity. }
  split.
  - intros i Hi. exists (buildTorus i).
    destruct (ringHue_no_wrap i Hi) as [Hval Hrange].
    repeat split.
    + apply buildTori_nth, Hi.
    + simpl. unfold ringHue. rewrite Hnine. reflexivity.
    + exact Hval.
    + apply Hrange.
    + apply Hrange.
  - intros win t0 p evs.
    pose proof (run_ring_colors win t0 p evs) as H.
    apply (f_equal (map (fun ic : nat * HSL => (fst ic, hue (snd ic))))) in H.
    rewrite !map_map in H. simpl in H. rewrite H.
    unfold ringHue. rewrite Hnine. reflexivity.
Qed.

End EngineProperties.

(** ** The properties at the sample inputs *)

Lemma probe_near_distance :
  sqrt ((1 - 0) * (1 - 0) + (0 - 0) * (0 - 0) + (0 - 0) * (0 - 0)) = 1.
Proof.
  replace ((1 - 0) * (1 - 0) + (0 - 0) * (0 - 0) + (0 - 0) * (0 - 0)) with 1 by lra.
  apply sqrt_1.
Qed.

Lemma probe_far_distance :
  sqrt ((1 - 5) * (1 - 5) + (0 - 0) * (0 - 0) + (0 - 0) * (0 - 0)) = 4.
Proof.
  replace ((1 - 5) * (1 - 5) + (0 - 0) * (0 - 0) + (0 - 0) * (0 - 0)) with (4 * 4) by lra.
  apply sqrt_square. lra.
Qed.

Lemma ring_scale_follows_pointer_distance_witness :
  (exists m',
      nth_error (torusGroup (renderLoop Sample.controls_update Sample.frame10 Probe.near)) 0
      = Some m'
      /\ scale m' = mkVector3 1.13718784 1.13718784 1.13718784)
  /\ (exists m',
        nth_error (torusGroup (renderLoop Sample.controls_update Sample.frame10 Probe.far)) 0
        = Some m'
        /\ scale m' = mkVector3 0.98 0.98 0.98).
Proof.
  destruct (ring_scale_follows_pointer_distance Sample.View Sample.controls_update)
    as [Hring _].
  split.
  - destruct (Hring Sample.frame10 Probe.near 0%nat Probe.ring eq_refl)
      as (m' & Hnth & Hscale & _).
    exists m'. split; [exact Hnth |].
    rewrite Hscale. cbn [Probe.near Probe.withPointer Probe.ring position pointer3D
                          origin3 x y z].
    rewrite probe_near_distance.
    rewrite (Rmin_right 1 (1 - 1 * 0.26)) by lra.
    rewrite (Rmax_right 0 (1 - 1 * 0.26)) by lra.
    f_equal; simpl; lra.
  - destruct (Hring Sample.frame10 Probe.far 0%nat Probe.ring eq_refl)
      as (m' & Hnth & _ & _ & _ & Hfar).
    exists m'. split; [exact Hnth |].
    apply Hfar. cbn [Probe.far Probe.withPointer Probe.ring position pointer3D x y z].
    rewrite probe_far_distance. lra.
Defined.

Lemma resize_sets_ratio_size_and_aspect_witness :
  pixelRatio (renderer (resize (mkWindow 800 600 (Some 3)) Sample.engine)) = Rmin 3 2
  /\ aspect (camera (resize (mkWindow 800 600 (Some 3)) Sample.engine)) = 800 / 600
  /\ projection (camera (run Sample.controls_update Sample.setFromCamera
                           [Resized (mkWindow 1024 768 (Some 1)); Tick Sample.frame10]
                           (setupThree Sample.initialView Sample.window 0 Sample.hud)))
     = aspect (camera (run Sample.controls_update Sample.setFromCamera
                         [Resized (mkWindow 1024 768 (Some 1)); Tick Sample.frame10]
                         (setupThree Sample.initialView Sample.window 0 Sample.hud))).
Proof.
  destruct (resize_sets_ratio_size_and_aspect Sample.View Sample.initialView
              Sample.controls_update Sample.setFromCamera) as [Hresize Hreach].
  assert (Hone : devicePixelRatio (mkWindow 800 600 (Some 3)) = Some 3) by reflexivity.
  assert (Hd : 0 < 3) by lra.
  assert (Hh : 0 < innerHeight (mkWindow 800 600 (Some 3))) by (simpl; lra).
  destruct (Hresize (mkWindow 800 600 (Some 3)) Sample.engine 3 Hone Hd Hh)
    as (Hratio & _ & _ & Haspect & _).
  split; [exact Hratio | split; [exact Haspect |]].
  apply (Hreach Sample.window 0 Sample.hud
           [Resized (mkWindow 1024 768 (Some 1)); Tick Sample.frame10]).
  - simpl. lra.
  - intros w [Hw | [Hw | []]]; [| discriminate Hw].
    injection Hw as <-. simpl. lra.
Defined.

(** C4, as stated, fails: a clock reading of 5 after one of 10 gives the
    frame a dt of -5, and the scene clock goes back by 5. *)
Lemma frame_dt_negative :
  frame_dt Sample.early
    (renderLoop Sample.controls_update Sample.frame10 Sample.engine) = -5
  /\ elapsed (motion (renderLoop Sample.controls_update Sample.early
                       (renderLoop Sample.controls_update Sample.frame10 Sample.engine)))
     < elapsed (motion (renderLoop Sample.controls_update Sample.frame10 Sample.engine)).
Proof.
  assert (Hdt : frame_dt Sample.early
                  (renderLoop Sample.controls_update Sample.frame10 Sample.engine) = -5).
  { unfold frame_dt. rewrite renderLoop_lastTime. simpl. lra. }
  split; [exact Hdt |].
  rewrite (renderLoop_elapsed _ Sample.controls_update Sample.early), Hdt. lra.
Qed.

Lemma frame_dt_is_raw_difference_witness :
  0 <= frame_dt Sample.frame10 Sample.engine
  /\ frame_dt Sample.early
       (renderLoop Sample.controls_update Sample.frame10 Sample.engine) < 0.
Proof.
  split.
  - apply (frame_dt_is_raw_difference Sample.View Sample.controls_update
             Sample.frame10 Sample.engine).
    simpl. lra.
  - apply (frame_dt_is_raw_difference Sample.View Sample.controls_update
             Sample.early
             (renderLoop Sample.controls_update Sample.frame10 Sample.engine)).
    simpl. lra.
Defined.

(** C5, as stated, fails: a tick delivered after dispose() issues a draw
    call, so it is not a no-op. *)
Lemma tick_after_dispose_draws :
  renderCalls (renderer (dispose Sample.engine)) = 0%nat
  /\ renderCalls (renderer (renderLoop Sample.controls_update Sample.frame10
                              (dispose Sample.engine))) = 1%nat
  /\ renderLoop Sample.controls_update Sample.frame10 (dispose Sample.engine)
     <> dispose Sample.engine.
Proof.
  split; [reflexivity | split; [reflexivity |]].
  intros H.
  apply (f_equal (fun st => renderCalls (renderer st))) in H.
  rewrite renderLoop_renderCalls in H. discriminate H.
Qed.

(** C8, as stated, fails: the second dispose() makes 21 release calls of
    its own, on top of the 21 of the first. *)
Lemma second_dispose_releases_again :
  length (released (dispose Sample.engine)) = 21%nat
  /\ length (released (dispose (dispose Sample.engine))) = 42%nat
  /\ released (dispose (dispose Sample.engine)) <> released (dispose Sample.engine).
Proof.
  split; [reflexivity | split; [reflexivity |]].
  intros H. apply (f_equal (@length Resource)) in H.
  change (42%nat = 21%nat) in H. discriminate H.
Qed.

Lemma turned_ray_misses_plane :
  ~ meetsPlaneZ
      (pointerRay Sample.setFromCamera Sample.centre Sample.window Sample.turned).
Proof.
  intros [t [Ht Hz]]. simpl in Hz. lra.
Qed.

Lemma pointer_kept_when_ray_misses_plane_witness :
  pointer3D (onPointerMove Sample.setFromCamera Sample.centre Sample.window
               Sample.turned)
  = mkVector3 1 2 0.
Proof.
  change (mkVector3 1 2 0) with (pointer3D Sample.turned).
  apply (pointer_kept_when_ray_misses_plane Sample.View Sample.setFromCamera
           Sample.centre Sample.window Sample.turned).
  exact turned_ray_misses_plane.
Defined.

Lemma ring_hue_by_index_witness :
  exists m,
    nth_error buildTori 4 = Some m
    /\ index m = 4%nat
    /\ hue (color m) = JS.rem (0.55 + (INR 4 / 9) * 0.25) 1
    /\ hue (color m) = 0.55 + (INR 4 / 9) * 0.25
    /\ 0.55 <= hue (color m) < 0.55 + 0.25.
Proof.
  apply (ring_hue_by_index Sample.View Sample.initialView Sample.controls_update
           Sample.setFromCamera).
  lia.
Defined.

(** * Further properties of the script *)

(** ** Rounding *)

Lemma Int_part_le (u v : R) : u <= v -> (Int_part u <= Int_part v)%Z.
Proof.
  intros Huv.
  destruct (base_Int_part u) as [Hu _].
  destruct (base_Int_part v) as [_ Hv].
  assert (H : IZR (Int_part u) < IZR (Int_part v + 1)) by (rewrite plus_IZR; lra).
  apply lt_IZR in H. lia.
Qed.

Lemma Math_round_le (u v : R) : u <= v -> (JS.Math_round u <= JS.Math_round v)%Z.
Proof. intros H. unfold JS.Math_round. apply Int_part_le. lra. Qed.

(** ** [clamp], [lerp] and the easings *)

(** With ordered bounds [clamp] lands between them, leaves a value inside
    them alone and is idempotent; with the bounds the wrong way round it
    returns the first bound whatever the value. *)
Theorem clamp_ordered_and_inverted_bounds :
  forall v a b,
    (a <= b ->
       a <= clamp v a b <= b
       /\ (a <= v <= b -> clamp v a b = v)
       /\ clamp (clamp v a b) a b = clamp v a b)
    /\ (b < a -> clamp v a b = a).
Proof.
  intros v a b. split.
  - intros Hab. split; [apply clamp_bounds, Hab | split].
    + intros [Hav Hvb]. unfold clamp.
      rewrite (Rmin_right b v Hvb). apply Rmax_right, Hav.
    + destruct (clamp_bounds v a b Hab) as [Hlo Hhi]. unfold clamp at 1.
      rewrite (Rmin_right b _ Hhi). apply Rmax_right, Hlo.
  - intros Hba. unfold clamp. apply Rmax_left.
    apply Rle_trans with b; [apply Rmin_l | lra].
Qed.

Lemma clamp_ordered_and_inverted_bounds_witness :
  clamp 5 0 3 = clamp (clamp 5 0 3) 0 3 /\ clamp 5 3 0 = 3.
Proof.
  destruct (clamp_ordered_and_inverted_bounds 5 0 3) as [Hord _].
  destruct (clamp_ordered_and_inverted_bounds 5 3 0) as [_ Hinv].
  split.
  - destruct Hord as (_ & _ & Hidem); [lra |]. symmetry. exact Hidem.
  - apply Hinv. lra.
Defined.

(** [easeOutCubic] maps 0 to 0, 1/2 to 7/8 and 1 to 1, keeps [0, 1]
    within [0, 1] and does not decrease there. *)
Theorem easeOutCubic_on_unit_interval :
  easeOutCubic 0 = 0
  /\ easeOutCubic 0.5 = 0.875
  /\ easeOutCubic 1 = 1
  /\ (forall t, 0 <= t <= 1 -> 0 <= easeOutCubic t <= 1)
  /\ (forall s t, 0 <= s -> s <= t -> t <= 1 -> easeOutCubic s <= easeOutCubic t).
Proof.
  split; [exact easeOutCubic_0 |].
  split; [unfold easeOutCubic; lra |].
  split; [exact easeOutCubic_1 |].
  split; [exact easeOutCubic_bounds |].
  intros s t _ Hst Ht. apply easeOutCubic_mono; assumption.
Qed.

Lemma easeOutCubic_on_unit_interval_witness :
  easeOutCubic 0.25 <= easeOutCubic 0.5 /\ 0 <= easeOutCubic 0.25 <= 1.
Proof.
  destruct easeOutCubic_on_unit_interval as (_ & _ & _ & Hrange & Hmono).
  split.
  - apply Hmono; lra.
  - apply Hrange. lra.
Defined.

Lemma lenis_easing_low (t : R) : t < 0.5 -> lenis_easing t = 4 * t * t * t.
Proof.
  intros H. unfold lenis_easing.
  destruct (Rlt_dec t 0.5) as [_ | Hn]; [reflexivity | contradiction].
Qed.

Lemma lenis_easing_high (t : R) :
  0.5 <= t -> lenis_easing t = 1 - (-2 * t + 2) ^ 3 / 2.
Proof.
  intros H. unfold lenis_easing.
  destruct (Rlt_dec t 0.5) as [Hlt | _]; [lra | reflexivity].
Qed.

(** The scroll easing goes from 0 to 1 through 1/16 at a quarter, 1/2 at
    the middle and 15/16 at three quarters, stays within [0, 1] and does
    not decrease on [0, 1]; the two branches of the conditional agree where
    they meet. *)
Theorem lenis_easing_shape :
  lenis_easing 0 = 0
  /\ lenis_easing 0.25 = 0.0625
  /\ lenis_easing 0.5 = 0.5
  /\ 4 * 0.5 * 0.5 * 0.5 = lenis_easing 0.5
  /\ lenis_easing 0.75 = 0.9375
  /\ lenis_easing 1 = 1
  /\ (forall s t, 0 <= s -> s <= t -> t <= 1 -> lenis_easing s <= lenis_easing t)
  /\ (forall t, 0 <= t <= 1 -> 0 <= lenis_easing t <= 1).
Proof.
  assert (Hmono : forall s t, 0 <= s -> s <= t -> t <= 1 ->
                    lenis_easing s <= lenis_easing t).
  { intros s t Hs Hst Ht.
    destruct (Rlt_dec t 0.5) as [Htl | Hth].
    - rewrite !lenis_easing_low by lra.
      assert (s * s <= t * t) by nra. nra.
    - destruct (Rlt_dec s 0.5) as [Hsl | Hsh].
      + rewrite (lenis_easing_low s Hsl), lenis_easing_high by lra.
        assert (Hc : (-2 * t + 2) ^ 3 <= 1 ^ 3) by (apply cube_mono; lra).
        rewrite pow1 in Hc.
        assert (s * s <= 0.25) by nra. nra.
      + rewrite !lenis_easing_high by lra.
        assert (Hc : (-2 * t + 2) ^ 3 <= (-2 * s + 2) ^ 3) by (apply cube_mono; lra).
        lra. }
  assert (H0 : lenis_easing 0 = 0) by (rewrite lenis_easing_low; lra).
  assert (H1 : lenis_easing 1 = 1) by (rewrite lenis_easing_high; lra).
  split; [exact H0 |].
  split; [rewrite lenis_easing_low; lra |].
  split; [rewrite lenis_easing_high; lra |].
  split; [rewrite lenis_easing_high; lra |].
  split; [rewrite lenis_easing_high; lra |].
  split; [exact H1 |].
  split; [exact Hmono |].
  intros t [Ht0 Ht1]. split.
  - rewrite <- H0. apply Hmono; lra.
  - rewrite <- H1. apply Hmono; lra.
Qed.

Lemma lenis_easing_shape_witness :
  lenis_easing 0.25 <= lenis_easing 0.75 /\ 0 <= lenis_easing 0.25 <= 1.
Proof.
  destruct lenis_easing_shape as (_ & _ & _ & _ & _ & _ & Hmono & Hrange).
  split.
  - apply Hmono; lra.
  - apply Hrange. lra.
Defined.

(** ** [throttle] and [debounce] *)

Section WrapperProperties.

Variable A : Type.

Implicit Types (a : A) (l : list A).

Lemma throttle_run_app (evs1 evs2 : list (ThrottleEvent A)) (st : Throttled A) :
  throttle_run (evs1 ++ evs2) st = throttle_run evs2 (throttle_run evs1 st).
Proof. unfold throttle_run. apply fold_left_app. Qed.

Lemma throttle_run_waiting l (st : Throttled A) :
  waiting st = true -> throttle_run (map Invoke l) st = st.
Proof.
  intros Hw. induction l as [| a l IH]; [reflexivity |].
  assert (Hs : throttle_step st (Invoke a) = st)
    by (unfold throttle_step; rewrite Hw; reflexivity).
  unfold throttle_run in *. cbn [map fold_left]. rewrite Hs. exact IH.
Qed.

Lemma throttle_run_bound (evs : list (ThrottleEvent A)) :
  forall st : Throttled A,
    (length (forwarded (throttle_run evs st))
     <= length (forwarded st) + frameCount evs + (if waiting st then 0 else 1))%nat.
Proof.
  induction evs as [| ev evs IH]; intros st.
  - simpl. lia.
  - destruct ev as [a |]; simpl.
    + destruct (waiting st) eqn:Hw.
      * specialize (IH st). rewrite Hw in IH. unfold frameCount in *. simpl. lia.
      * specialize (IH {| waiting := true; forwarded := forwarded st ++ [a] |}).
        simpl in IH. rewrite length_app in IH. unfold frameCount in *. simpl in *. lia.
    + specialize (IH {| waiting := false; forwarded := forwarded st |}).
      simpl in IH. unfold frameCount in *. simpl.
      destruct (waiting st); lia.
Qed.

(** A throttled function is called at most once more than there were
    animation frames; of a burst of calls with no frame in between only the
    first goes through, and a call that follows a frame always does. *)
Theorem throttle_one_call_per_frame :
  (forall evs : list (ThrottleEvent A),
      (length (forwarded (throttle_run evs throttle)) <= S (frameCount evs))%nat)
  /\ (forall a l (st : Throttled A),
        waiting st = false ->
        throttle_run (map Invoke (a :: l)) st
        = {| waiting := true; forwarded := forwarded st ++ [a] |})
  /\ (forall evs a (st : Throttled A),
        forwarded (throttle_run (evs ++ [AnimationFrame; Invoke a]) st)
        = forwarded (throttle_run evs st) ++ [a]).
Proof.
  split; [| split].
  - intros evs. pose proof (throttle_run_bound evs throttle) as H.
    simpl in H. lia.
  - intros a l st Hw.
    assert (Hs : throttle_step st (Invoke a)
                 = {| waiting := true; forwarded := forwarded st ++ [a] |})
      by (unfold throttle_step; rewrite Hw; reflexivity).
    change (throttle_run (map Invoke (a :: l)) st)
      with (throttle_run (map Invoke l) (throttle_step st (Invoke a))).
    rewrite Hs. apply throttle_run_waiting. reflexivity.
  - intros evs a st. rewrite throttle_run_app. reflexivity.
Qed.

Lemma debounce_run_app (evs1 evs2 : list (DebounceEvent A)) (st : Debounced A) :
  debounce_run (evs1 ++ evs2) st = debounce_run evs2 (debounce_run evs1 st).
Proof. unfold debounce_run. apply fold_left_app. Qed.

Lemma debounce_run_calls l a (st : Debounced A) :
  debounce_run (map Call (l ++ [a])) st
  = {| timer := Some a; delivered := delivered st |}.
Proof.
  revert st. induction l as [| b l IH]; intros st; [reflexivity |].
  change (debounce_run (map Call ((b :: l) ++ [a])) st)
    with (debounce_run (map Call (l ++ [a])) (debounce_step st (Call b))).
  rewrite (IH (debounce_step st (Call b))). reflexivity.
Qed.

Lemma debounce_run_bound (evs : list (DebounceEvent A)) :
  forall st : Debounced A,
    (length (delivered (debounce_run evs st))
     <= length (delivered st) + timeoutCount evs)%nat.
Proof.
  induction evs as [| ev evs IH]; intros st.
  - simpl. lia.
  - destruct ev as [a |]; simpl.
    + specialize (IH {| timer := Some a; delivered := delivered st |}).
      simpl in IH. unfold timeoutCount in *. simpl. lia.
    + destruct (timer st) as [a |] eqn:Ht.
      * specialize (IH {| timer := None; delivered := delivered st ++ [a] |}).
        simpl in IH. rewrite length_app in IH.
        unfold timeoutCount in *. simpl in *. lia.
      * specialize (IH st). unfold timeoutCount in *. simpl. lia.
Qed.

(** A debounced function is called at most once per expired timer; a burst
    of calls followed by the expiry calls it once, with the arguments of
    the last call of the burst, and an expiry with no call pending does
    nothing. *)
Theorem debounce_delivers_last_call :
  (forall (evs : list (DebounceEvent A)) (st : Debounced A),
      (length (delivered (debounce_run evs st))
       <= length (delivered st) + timeoutCount evs)%nat)
  /\ (forall l a (st : Debounced A),
        debounce_run (map Call (l ++ [a]) ++ [Timeout]) st
        = {| timer := None; delivered := delivered st ++ [a] |})
  /\ (forall l a (st : Debounced A),
        debounce_run (map Call (l ++ [a]) ++ [Timeout; Timeout]) st
        = {| timer := None; delivered := delivered st ++ [a] |}).
Proof.
  split; [| split].
  - intros evs st. apply debounce_run_bound.
  - intros l a st. rewrite debounce_run_app, debounce_run_calls. reflexivity.
  - intros l a st. rewrite debounce_run_app, debounce_run_calls. reflexivity.
Qed.

End WrapperProperties.

Lemma throttle_one_call_per_frame_witness :
  throttle_run (map Invoke [1%nat; 2%nat; 3%nat]) throttle
  = {| waiting := true; forwarded := [1%nat] |}.
Proof.
  apply (throttle_one_call_per_frame nat). reflexivity.
Defined.

(** ** Navigation *)

(** A click on the menu toggle closes an open menu and opens any other:
    when aria-expanded is 'true' it becomes 'false' and aria-hidden
    'true'; when it is 'false', absent or anything else it becomes 'true'
    and aria-hidden 'false'.  So after a click the two attributes are
    opposite, every click changes the state, and clicks alternate. *)
Theorem toggle_keeps_attributes_opposite :
  forall m : Nav.Menu,
    (Nav.aria_expanded m = Nav.AttrTrue ->
       Nav.toggle m
       = {| Nav.aria_expanded := Nav.AttrFalse; Nav.aria_hidden := Nav.AttrTrue |})
    /\ (Nav.aria_expanded m <> Nav.AttrTrue ->
        Nav.toggle m
        = {| Nav.aria_expanded := Nav.AttrTrue; Nav.aria_hidden := Nav.AttrFalse |})
    /\ (exists b : bool,
          Nav.aria_expanded (Nav.toggle m) = Nav.ofBool b
          /\ Nav.aria_hidden (Nav.toggle m) = Nav.ofBool (negb b))
    /\ Nav.toggle (Nav.toggle (Nav.toggle m)) = Nav.toggle m
    /\ Nav.toggle (Nav.toggle m) <> Nav.toggle m.
Proof.
  intros [e h]. split; [| split; [| split; [| split]]].
  - simpl. intros ->. reflexivity.
  - simpl. destruct e; intros He; [contradiction | reflexivity | reflexivity].
  - destruct e; [exists false | exists true | exists true]; split; reflexivity.
  - destruct e; reflexivity.
  - destruct e; discriminate.
Qed.

Lemma toggle_keeps_attributes_opposite_witness :
  Nav.toggle (Nav.mkMenu Nav.AttrOther Nav.AttrOther)
  = {| Nav.aria_expanded := Nav.AttrTrue; Nav.aria_hidden := Nav.AttrFalse |}
  /\ Nav.toggle (Nav.mkMenu Nav.AttrTrue Nav.AttrFalse)
     = {| Nav.aria_expanded := Nav.AttrFalse; Nav.aria_hidden := Nav.AttrTrue |}.
Proof.
  destruct (toggle_keeps_attributes_opposite (Nav.mkMenu Nav.AttrOther Nav.AttrOther))
    as (_ & Hopen & _).
  destruct (toggle_keeps_attributes_opposite (Nav.mkMenu Nav.AttrTrue Nav.AttrFalse))
    as (Hclose & _).
  split.
  - apply Hopen. discriminate.
  - apply Hclose. reflexivity.
Defined.

Lemma pct_percent_range (m : Nav.Metrics) :
  0 < Nav.scrollHeight m - Nav.clientHeight m ->
  0 <= Nav.scrollTopOf m <= Nav.scrollHeight m - Nav.clientHeight m ->
  0 <= Nav.pct m * 100 <= 100.
Proof.
  intros Hh [H0 H1]. unfold Nav.pct.
  destruct (Rlt_dec 0 (Nav.scrollHeight m - Nav.clientHeight m)) as [_ | Hn];
    [| contradiction].
  set (h := Nav.scrollHeight m - Nav.clientHeight m) in *.
  set (t := Nav.scrollTopOf m) in *.
  assert (Hq0 : 0 <= t / h) by (apply Rmult_le_pos; [lra | left; apply Rinv_0_lt_compat, Hh]).
  assert (Hq1 : t / h <= 1).
  { apply Rmult_le_reg_r with h; [exact Hh |]. unfold Rdiv.
    rewrite Rmult_assoc, Rinv_l by lra. lra. }
  lra.
Qed.

(** The progress bar gets a whole percentage: 0 when the document does not
    scroll, and between 0 and 100 when the scroll position lies within the
    scrollable height; a missing bar stays missing. *)
Theorem updateProgress_percentage :
  forall (m : Nav.Metrics) (s : Nav.State),
    (Nav.progressBar s = None -> Nav.progressBar (Nav.updateProgress m s) = None)
    /\ (forall w, Nav.progressBar s = Some w ->
          Nav.scrollHeight m - Nav.clientHeight m <= 0 ->
          Nav.progressBar (Nav.updateProgress m s) = Some (Nav.Percent 0))
    /\ (forall w, Nav.progressBar s = Some w ->
          0 < Nav.scrollHeight m - Nav.clientHeight m ->
          0 <= Nav.scrollTopOf m <= Nav.scrollHeight m - Nav.clientHeight m ->
          exists n, Nav.progressBar (Nav.updateProgress m s) = Some (Nav.Percent n)
                    /\ (0 <= n <= 100)%Z).
Proof.
  intros m s.
  assert (Hbar : forall w, Nav.progressBar s = Some w ->
            Nav.progressBar (Nav.updateProgress m s)
            = Some (Nav.Percent (JS.Math_round (Nav.pct m * 100)))).
  { intros w Hw. unfold Nav.updateProgress. rewrite Hw.
    destruct (Nav.header s); reflexivity. }
  split; [| split].
  - intros Hnone. unfold Nav.updateProgress. rewrite Hnone.
    destruct (Nav.header s); reflexivity.
  - intros w Hw Hflat. rewrite (Hbar w Hw). unfold Nav.pct.
    destruct (Rlt_dec 0 _) as [Hpos | _]; [lra |].
    replace (0 * 100) with (IZR 0) by lra. rewrite Math_round_IZR. reflexivity.
  - intros w Hw Hpos Hin. rewrite (Hbar w Hw).
    exists (JS.Math_round (Nav.pct m * 100)). split; [reflexivity |].
    destruct (pct_percent_range m Hpos Hin) as [Hlo Hhi]. split.
    + pose proof (Math_round_le _ _ Hlo) as H. rewrite Math_round_IZR in H. exact H.
    + pose proof (Math_round_le _ _ Hhi) as H. rewrite Math_round_IZR in H. exact H.
Qed.

Lemma updateProgress_percentage_witness :
  exists n,
    Nav.progressBar
      (Nav.updateProgress (Nav.mkMetrics 300 0 1600 400)
                          (Nav.mkState 0 (Some Nav.Unstyled) (Some false)))
    = Some (Nav.Percent n)
    /\ (0 <= n <= 100)%Z.
Proof.
  apply (updateProgress_percentage (Nav.mkMetrics 300 0 1600 400)
           (Nav.mkState 0 (Some Nav.Unstyled) (Some false)) ) with (w := Nav.Unstyled).
  - reflexivity.
  - simpl. lra.
  - unfold Nav.scrollTopOf. simpl.
    rewrite truthy_nonzero by lra. lra.
Defined.

(** With a header on the page, the header is hidden exactly when the page
    was scrolled down and is past 200 pixels, and the remembered scroll
    position is the current one, never negative; without a header the
    remembered position is not updated. *)
Theorem updateProgress_header :
  forall (m : Nav.Metrics) (s : Nav.State),
    (forall h, Nav.header s = Some h ->
        (Nav.header (Nav.updateProgress m s) = Some true
         <-> Nav.lastScroll s < Nav.scrollTopOf m /\ 200 < Nav.scrollTopOf m)
        /\ (Nav.header (Nav.updateProgress m s) = Some false
            <-> ~ (Nav.lastScroll s < Nav.scrollTopOf m /\ 200 < Nav.scrollTopOf m))
        /\ Nav.lastScroll (Nav.updateProgress m s) = Rmax 0 (Nav.scrollTopOf m)
        /\ 0 <= Nav.lastScroll (Nav.updateProgress m s))
    /\ (Nav.header s = None ->
        Nav.header (Nav.updateProgress m s) = None
        /\ Nav.lastScroll (Nav.updateProgress m s) = Nav.lastScroll s).
Proof.
  intros m s. split.
  - intros h Hh. unfold Nav.updateProgress. rewrite Hh. cbn [Nav.header Nav.lastScroll].
    assert (Hlast : (if Rle_dec (Nav.scrollTopOf m) 0 then 0 else Nav.scrollTopOf m)
                    = Rmax 0 (Nav.scrollTopOf m)).
    { destruct (Rle_dec (Nav.scrollTopOf m) 0) as [Hle | Hgt].
      - symmetry. apply Rmax_left, Hle.
      - symmetry. apply Rmax_right. lra. }
    rewrite Hlast.
    destruct (Rlt_dec (Nav.lastScroll s) (Nav.scrollTopOf m)) as [Hdown | Hup];
      [destruct (Rlt_dec 200 (Nav.scrollTopOf m)) as [Hfar | Hnear] |].
    + repeat split;
        first [ reflexivity | apply Rmax_l | assumption | discriminate
              | intros; reflexivity | intros; exfalso; tauto ].
    + repeat split;
        first [ reflexivity | apply Rmax_l | discriminate
              | intros; reflexivity | intros; exfalso; lra | intros [_ Hfar]; lra | intros; lra ].
    + repeat split;
        first [ reflexivity | apply Rmax_l | discriminate
              | intros; reflexivity | intros; exfalso; lra | intros [Hdown _]; lra | intros; lra ].
  - intros Hnone. unfold Nav.updateProgress. rewrite Hnone. split; reflexivity.
Qed.

Lemma updateProgress_header_witness :
  Nav.header (Nav.updateProgress (Nav.mkMetrics 300 0 1600 400)
                                 (Nav.mkState 100 None (Some false)))
  = Some true
  /\ Nav.lastScroll (Nav.updateProgress (Nav.mkMetrics 300 0 1600 400)
                                        (Nav.mkState 100 None None)) = 100.
Proof.
  assert (Htop : Nav.scrollTopOf (Nav.mkMetrics 300 0 1600 400) = 300).
  { unfold Nav.scrollTopOf. simpl. rewrite truthy_nonzero by lra. reflexivity. }
  split.
  - apply (updateProgress_header (Nav.mkMetrics 300 0 1600 400)
             (Nav.mkState 100 None (Some false))) with (h := false).
    + reflexivity.
    + rewrite Htop. simpl. lra.
  - apply (updateProgress_header (Nav.mkMetrics 300 0 1600 400)
             (Nav.mkState 100 None None)).
    reflexivity.
Defined.

(** ** Showcase carousel *)

Lemma Rmin_IZR (a b : Z) : Rmin (IZR a) (IZR b) = IZR (Z.min a b).
Proof.
  destruct (Z.le_ge_cases a b) as [H | H].
  - rewrite Z.min_l by exact H. apply Rmin_left, IZR_le, H.
  - rewrite Z.min_r by exact H. apply Rmin_right, IZR_le, H.
Qed.

Lemma Rmax_IZR (a b : Z) : Rmax (IZR a) (IZR b) = IZR (Z.max a b).
Proof.
  destruct (Z.le_ge_cases a b) as [H | H].
  - rewrite Z.max_r by exact H. apply Rmax_right, IZR_le, H.
  - rewrite Z.max_l by exact H. apply Rmax_left, IZR_le, H.
Qed.

(** The slide a whole number is clamped to. *)
Lemma clamp_slide (len : nat) (i : Z) :
  (1 <= len)%nat ->
  exists k : nat,
    (k < len)%nat
    /\ clamp (IZR i) 0 (INR len - 1) = INR k
    /\ Z.of_nat k = Z.max 0 (Z.min (Z.of_nat len - 1) i).
Proof.
  intros Hlen.
  exists (Z.to_nat (Z.max 0 (Z.min (Z.of_nat len - 1) i))).
  assert (Hk : (0 <= Z.max 0 (Z.min (Z.of_nat len - 1) i) < Z.of_nat len)%Z) by lia.
  split; [lia | split].
  - unfold clamp. rewrite (INR_IZR_INZ len), <- minus_IZR, Rmin_IZR, Rmax_IZR.
    rewrite INR_IZR_INZ, Z2Nat.id by lia. reflexivity.
  - apply Z2Nat.id. lia.
Qed.

Lemma selected_dot (ndots k : nat) :
  map (fun di => if Req_dec_T (INR di) (INR k) then true else false) (seq 0 ndots)
  = map (fun di => Nat.eqb di k) (seq 0 ndots).
Proof.
  apply map_ext. intros di.
  destruct (Req_dec_T (INR di) (INR k)) as [E | N].
  - apply INR_eq in E. subst. symmetry. apply Nat.eqb_refl.
  - symmetry. apply Nat.eqb_neq. intros ->. apply N. reflexivity.
Qed.

(** A state in which slide [k] is current. *)
Lemma goto_slide (len ndots : nat) (width : R) (i : Z) (instant : bool) :
  (1 <= len)%nat ->
  exists k : nat,
    (k < len)%nat
    /\ Z.of_nat k = Z.max 0 (Z.min (Z.of_nat len - 1) i)
    /\ Showcase.index (Showcase.goto len ndots width (IZR i) instant) = INR k
    /\ Showcase.left (Showcase.goto len ndots width (IZR i) instant) = INR k * width
    /\ Showcase.selected (Showcase.goto len ndots width (IZR i) instant)
       = map (fun di => Nat.eqb di k) (seq 0 ndots).
Proof.
  intros Hlen. destruct (clamp_slide len i Hlen) as (k & Hk & Hclamp & Hz).
  exists k. unfold Showcase.goto. cbn [Showcase.index Showcase.left Showcase.selected].
  rewrite Hclamp. repeat split; try assumption. apply selected_dot.
Qed.

Lemma step_slide (len ndots : nat) (width : R) (st : Showcase.State) (ev : Showcase.Event) :
  (1 <= len)%nat ->
  (exists k : nat,
      (k < len)%nat /\ Showcase.index st = INR k
      /\ Showcase.selected st = map (fun di => Nat.eqb di k) (seq 0 ndots)) ->
  exists k : nat,
    (k < len)%nat /\ Showcase.index (Showcase.step len ndots width st ev) = INR k
    /\ Showcase.selected (Showcase.step len ndots width st ev)
       = map (fun di => Nat.eqb di k) (seq 0 ndots).
Proof.
  intros Hlen (k0 & Hk0 & Hidx & Hsel).
  assert (Hgo : forall i : Z,
            exists k : nat,
              (k < len)%nat
              /\ Showcase.index (Showcase.goto len ndots width (IZR i) false) = INR k
              /\ Showcase.selected (Showcase.goto len ndots width (IZR i) false)
                 = map (fun di => Nat.eqb di k) (seq 0 ndots)).
  { intros i. destruct (goto_slide len ndots width i false Hlen)
      as (k & Hk & _ & Hi & _ & Hs).
    exists k. repeat split; assumption. }
  destruct ev as [| | i | scrollLeft | | |]; simpl.
  - rewrite Hidx, INR_IZR_INZ, <- minus_IZR. apply Hgo.
  - rewrite Hidx, INR_IZR_INZ, <- plus_IZR. apply Hgo.
  - rewrite INR_IZR_INZ. apply Hgo.
  - apply Hgo.
  - rewrite Hidx, INR_IZR_INZ, <- plus_IZR. apply Hgo.
  - rewrite Hidx, INR_IZR_INZ, <- minus_IZR. apply Hgo.
  - exists k0. repeat split; assumption.
Qed.

(** With at least one slide and a track of positive width, after set-up
    and any sequence of clicks, key presses and settled scrolls the current
    index is a whole slide number below the number of slides, and the dot
    of that slide, and no other, is marked selected. *)
Theorem showcase_index_in_range :
  forall (len ndots : nat) (width : R) (evs : list Showcase.Event),
    (1 <= len)%nat ->
    0 < width ->
    exists k : nat,
      (k < len)%nat
      /\ Showcase.index (Showcase.run len ndots width evs (Showcase.init len ndots width))
         = INR k
      /\ Showcase.selected (Showcase.run len ndots width evs (Showcase.init len ndots width))
         = map (fun di => Nat.eqb di k) (seq 0 ndots).
Proof.
  intros len ndots width evs Hlen _.
  induction evs as [| ev evs IH] using rev_ind.
  - destruct (goto_slide len ndots width 0 true Hlen) as (k & Hk & _ & Hi & _ & Hs).
    exists k. repeat split; assumption.
  - unfold Showcase.run in *. rewrite fold_left_app. simpl.
    apply step_slide; assumption.
Qed.

Lemma showcase_index_in_range_witness :
  exists k : nat,
    (k < 3)%nat
    /\ Showcase.index
         (Showcase.run 3 3 400
            [Showcase.ClickNext; Showcase.ClickNext; Showcase.ClickNext;
             Showcase.ScrollSettled 790]
            (Showcase.init 3 3 400))
       = INR k
    /\ Showcase.selected
         (Showcase.run 3 3 400
            [Showcase.ClickNext; Showcase.ClickNext; Showcase.ClickNext;
             Showcase.ScrollSettled 790]
            (Showcase.init 3 3 400))
       = map (fun di => Nat.eqb di k) (seq 0 3).
Proof.
  apply showcase_index_in_range; [lia | lra].
Defined.

(** The carousel does not wrap around: going back from the first slide
    stays on the first, going forward from the last stays on the last, a
    click on the dot of an existing slide goes to that slide, and with no
    slides at all every request ends at index 0. *)
Theorem showcase_no_wrap_around :
  forall (len ndots : nat) (width : R) (st : Showcase.State),
    (Showcase.index st = 0 ->
       Showcase.index (Showcase.step len ndots width st Showcase.ClickPrev) = 0)
    /\ ((1 <= len)%nat -> Showcase.index st = INR len - 1 ->
        Showcase.index (Showcase.step len ndots width st Showcase.ClickNext)
        = INR len - 1)
    /\ (forall i, (i < len)%nat ->
        Showcase.index (Showcase.step len ndots width st (Showcase.ClickDot i)) = INR i
        /\ Showcase.left (Showcase.step len ndots width st (Showcase.ClickDot i))
           = INR i * width)
    /\ (len = 0%nat -> forall i instant,
        Showcase.index (Showcase.goto len ndots width i instant) = 0).
Proof.
  intros len ndots width st. split; [| split; [| split]].
  - intros H0. simpl. rewrite H0. unfold clamp.
    apply Rmax_left. apply Rle_trans with (0 - 1); [apply Rmin_r | lra].
  - intros Hlen Hlast. simpl. rewrite Hlast.
    assert (Hpos : 1 <= INR len) by (change 1 with (INR 1); apply le_INR, Hlen).
    apply clamp_above; lra.
  - intros i Hi.
    assert (Hlo : 0 <= INR i) by apply pos_INR.
    assert (Hhi : INR i <= INR len - 1).
    { assert (H : INR (S i) <= INR len) by (apply le_INR; lia).
      rewrite S_INR in H. lra. }
    assert (Hc : clamp (INR i) 0 (INR len - 1) = INR i).
    { unfold clamp. rewrite (Rmin_right _ _ Hhi). apply Rmax_right, Hlo. }
    simpl. rewrite Hc. split; reflexivity.
  - intros -> i instant. simpl. unfold clamp.
    apply Rmax_left. apply Rle_trans with (0 - 1); [apply Rmin_l | lra].
Qed.

Lemma showcase_no_wrap_around_witness :
  Showcase.index (Showcase.step 3 3 400 (Showcase.init 3 3 400) Showcase.ClickPrev) = 0
  /\ Showcase.index (Showcase.step 3 3 400 (Showcase.init 3 3 400) (Showcase.ClickDot 2))
     = INR 2.
Proof.
  destruct (showcase_no_wrap_around 3 3 400 (Showcase.init 3 3 400))
    as (Hprev & _ & Hdot & _).
  split.
  - apply Hprev. simpl. unfold clamp.
    rewrite Rmin_right by lra. apply Rmax_left. lra.
  - apply Hdot. lia.
Defined.

(** ** Magnetic hover *)

Lemma Rabs_le_between (v b : R) : Rabs v <= b -> - b <= v <= b.
Proof.
  unfold Rabs. destruct (Rcase_abs v) as [Hneg | Hpos]; intros H; lra.
Qed.

(** The tilt of a magnetic element never exceeds 8 degrees either way;
    with the pointer on the centre of the element there is no shift and no
    tilt; and while the pointer is within 288 pixels of the centre on an
    axis the tilt about the other axis follows the shift exactly. *)
Theorem magnetic_tilt_bounded :
  forall (r : Magnetic.Rect) (clientX clientY : R),
    -8 <= Magnetic.rotateX (Magnetic.onMove r clientX clientY) <= 8
    /\ -8 <= Magnetic.rotateY (Magnetic.onMove r clientX clientY) <= 8
    /\ (clientX = Magnetic.left r + Magnetic.width r / 2 ->
        clientY = Magnetic.top r + Magnetic.height r / 2 ->
        Magnetic.onMove r clientX clientY
        = {| Magnetic.tx := 0; Magnetic.ty := 0; Magnetic.tz := 6;
             Magnetic.rotateX := 0; Magnetic.rotateY := 0 |})
    /\ (Rabs (clientX - (Magnetic.left r + Magnetic.width r / 2)) <= 288 ->
        Magnetic.rotateY (Magnetic.onMove r clientX clientY)
        = Magnetic.tx (Magnetic.onMove r clientX clientY))
    /\ (Rabs (clientY - (Magnetic.top r + Magnetic.height r / 2)) <= 288 ->
        Magnetic.rotateX (Magnetic.onMove r clientX clientY)
        = - Magnetic.ty (Magnetic.onMove r clientX clientY)).
Proof.
  intros r clientX clientY.
  assert (Hin : forall v, -8 <= v <= 8 -> clamp v (-8) 8 = v).
  { intros v [Hlo Hhi]. unfold clamp.
    rewrite (Rmin_right _ _ Hhi). apply Rmax_right, Hlo. }
  split; [apply clamp_bounds; lra | split; [apply clamp_bounds; lra | split; [| split]]].
  - intros -> ->. unfold Magnetic.onMove, Magnetic.sensitivity.
    replace ((Magnetic.left r + Magnetic.width r / 2
              - (Magnetic.left r + Magnetic.width r / 2)) / 36) with 0 by lra.
    replace ((Magnetic.top r + Magnetic.height r / 2
              - (Magnetic.top r + Magnetic.height r / 2)) / 36) with 0 by lra.
    replace (- 0) with 0 by lra.
    rewrite Hin by lra. reflexivity.
  - intros Habs. apply Rabs_le_between in Habs.
    unfold Magnetic.onMove, Magnetic.sensitivity. cbn [Magnetic.rotateY Magnetic.tx].
    apply Hin. lra.
  - intros Habs. apply Rabs_le_between in Habs.
    unfold Magnetic.onMove, Magnetic.sensitivity. cbn [Magnetic.rotateX Magnetic.ty].
    apply Hin. lra.
Qed.

Lemma magnetic_tilt_bounded_witness :
  Magnetic.onMove (Magnetic.mkRect 100 50 80 40) 140 70
  = {| Magnetic.tx := 0; Magnetic.ty := 0; Magnetic.tz := 6;
       Magnetic.rotateX := 0; Magnetic.rotateY := 0 |}.
Proof.
  apply (magnetic_tilt_bounded (Magnetic.mkRect 100 50 80 40) 140 70); simpl; lra.
Defined.

(** ** Scroll parallax *)

(** In a viewport of positive height the parallax value written for a
    node lies in [0, 1]; it is 0 for a node centred in the viewport of a
    page that is not scrolled; and the speed is 0.2 when the node's
    attribute is not a finite number. *)
Theorem parallax_value_range :
  forall (scrollerTop innerHeight top height : R) (speed : Numeric),
    0 < innerHeight ->
    0 <= Parallax.update scrollerTop innerHeight top height speed <= 1
    /\ (scrollerTop = 0 -> top + height / 2 = innerHeight / 2 ->
        Parallax.update scrollerTop innerHeight top height speed = 0)
    /\ Parallax.update scrollerTop innerHeight top height NotFinite
       = Rabs (clamp ((scrollerTop + innerHeight / 2 - (top + scrollerTop + height / 2))
                      / (innerHeight * 0.8) * 0.2) (-1) 1).
Proof.
  intros scrollerTop innerHeight top height speed Hpos. split; [| split].
  - unfold Parallax.update.
    match goal with |- 0 <= Rabs (clamp ?v _ _) <= 1 =>
      destruct (clamp_bounds v (-1) 1) as [Hlo Hhi]; [lra |]
    end.
    split; [apply Rabs_pos | apply Rabs_le; split; assumption].
  - intros -> Hcentre. unfold Parallax.update.
    replace (0 + innerHeight / 2 - (top + 0 + height / 2)) with 0 by lra.
    unfold Rdiv. rewrite !Rmult_0_l.
    replace (clamp 0 (-1) 1) with 0; [apply Rabs_R0 |].
    unfold clamp. rewrite Rmin_right by lra. rewrite Rmax_right by lra. reflexivity.
  - reflexivity.
Qed.

Lemma parallax_value_range_witness :
  Parallax.update 0 600 250 100 (Finite 0.5) = 0.
Proof.
  apply (parallax_value_range 0 600 250 100 (Finite 0.5)); lra.
Defined.

(** ** Invariants of the engine *)

Lemma ticks_snoc (evs : list Event) (ev : Event) :
  ticks (evs ++ [ev])
  = (ticks evs + match ev with Tick _ => 1 | _ => 0 end)%nat.
Proof.
  unfold ticks. rewrite filter_app, length_app.
  destruct ev; reflexivity.
Qed.

Lemma disposals_snoc (evs : list Event) (ev : Event) :
  disposals (evs ++ [ev])
  = (disposals evs + match ev with Disposed => 1 | _ => 0 end)%nat.
Proof.
  unfold disposals. rewrite filter_app, length_app.
  destruct ev; reflexivity.
Qed.

Lemma buildTorus_in_box (i : nat) :
  Rabs (x (position (buildTorus i))) <= 1.6 + INR i * 0.14
  /\ Rabs (y (position (buildTorus i))) <= 0.6 + INR i * 0.06
  /\ z (position (buildTorus i)) = - INR i * 0.06.
Proof.
  assert (Hi : 0 <= INR i) by apply pos_INR.
  unfold buildTorus. cbn [position x y z].
  set (a := INR i / INR count * PI * 2).
  pose proof (COS_bound a) as [Hc0 Hc1].
  pose proof (SIN_bound a) as [Hs0 Hs1].
  split; [| split; [| reflexivity]].
  - apply Rabs_le. split; nra.
  - apply Rabs_le. split; nra.
Qed.

Section EngineInvariants.

Variable View : Type.
Variable initialView : View.
Variable controls_update : View -> View.
Variable setFromCamera : Vector2 -> Camera View -> Ray.

Implicit Types (st : Engine View) (f : Frame) (win : Window) (e : PointerEvent).

Local Abbreviation tick := (renderLoop controls_update).
Local Abbreviation steps := (run controls_update setFromCamera).
Local Abbreviation boot := (setupThree initialView).
Local Abbreviation invariant :=
  (run_invariant View initialView controls_update setFromCamera).
Local Abbreviation snoc := (run_snoc View controls_update setFromCamera).

Lemma run_cons (ev : Event) (evs : list Event) st :
  steps (ev :: evs) st = steps evs (step controls_update setFromCamera st ev).
Proof. reflexivity. Qed.

Lemma elapsed_never_negative (evs : list Event) :
  forall st,
    0 <= elapsed (motion st) ->
    clockNeverGoesBack (lastTime st) evs ->
    0 <= elapsed (motion (steps evs st)).
Proof.
  induction evs as [| ev evs IH]; intros st Hpos Hclock; [exact Hpos |].
  rewrite run_cons. destruct ev as [f | w | e w |]; simpl in Hclock.
  - destruct Hclock as [Hle Hrest]. apply IH.
    + simpl. lra.
    + exact Hrest.
  - apply IH; assumption.
  - apply IH; assumption.
  - apply IH; assumption.
Qed.

(** The scene clock follows the clock readings: a frame whose reading is
    not before the previous one never sets [elapsed] back, and while the
    readings never go back [elapsed] is never negative in any state the
    engine reaches; every frame hands the new [elapsed] to the particle
    shader as [uTime], so from the first frame on the two are equal. *)
Theorem elapsed_advances_with_clock :
  (forall f st,
      lastTime st <= now_loop f ->
      elapsed (motion st) <= elapsed (motion (renderLoop controls_update f st)))
  /\ (forall f st,
        uTime (motion (renderLoop controls_update f st))
        = elapsed (motion (renderLoop controls_update f st)))
  /\ (forall win t0 p evs,
        clockNeverGoesBack t0 evs ->
        0 <= elapsed (motion (steps evs (boot win t0 p))))
  /\ (forall win t0 p evs,
        (1 <= ticks evs)%nat ->
        uTime (motion (steps evs (boot win t0 p)))
        = elapsed (motion (steps evs (boot win t0 p)))).
Proof.
  split; [| split; [| split]].
  - intros f st Hle. simpl. lra.
  - intros f st. reflexivity.
  - intros win t0 p evs Hclock. apply elapsed_never_negative.
    + simpl. lra.
    + exact Hclock.
  - intros win t0 p evs. induction evs as [| ev evs IH] using rev_ind.
    + unfold ticks. simpl. lia.
    + rewrite snoc, ticks_snoc.
      destruct ev as [f | w | e w |]; simpl; intros Ht.
      * reflexivity.
      * apply IH. lia.
      * apply IH. lia.
      * apply IH. lia.
Qed.

(** Every frame issues exactly one draw call and requests exactly one
    further frame: the draw calls made equal the frames run, and the frame
    requests made are one more, the first being made by the set-up. *)
Theorem one_draw_and_one_request_per_frame :
  forall win t0 p evs,
    renderCalls (renderer (steps evs (boot win t0 p))) = ticks evs
    /\ requested (steps evs (boot win t0 p)) = S (ticks evs).
Proof.
  intros win t0 p evs. induction evs as [| ev evs [IHr IHq]] using rev_ind.
  - split; reflexivity.
  - rewrite snoc, ticks_snoc.
    destruct ev as [f | w | e w |]; simpl; rewrite ?IHr, ?IHq; split; lia.
Qed.

(** The pointer world point lies on the plane z = 0 in every state the
    engine reaches, whatever pointer events arrive and whatever rays the
    camera produces for them. *)
Theorem pointer_stays_on_plane :
  forall win t0 p evs,
    z (pointer3D (run controls_update setFromCamera evs
                    (setupThree initialView win t0 p))) = 0.
Proof.
  intros win t0 p.
  apply (invariant (fun st => z (pointer3D st) = 0)).
  - reflexivity.
  - intros st ev IH. destruct ev as [f | w | e w |]; simpl; try exact IH.
    unfold intersectPlane.
    destruct (distanceToPlane (setFromCamera (pointerNDC e w) (camera st)) planeZ)
      as [t |] eqn:E.
    + apply (distanceToPlane_hit _ _ E).
    + exact IH.
Qed.

(** A pointer event inside a window of positive size is normalised into
    the square from -1 to 1 on both axes, with the vertical axis turned
    over: the left and top edges map to -1 and 1, the centre to 0. *)
Theorem pointer_normalised_to_unit_square :
  forall e win st,
    0 < innerWidth win ->
    0 < innerHeight win ->
    (0 <= clientX e <= innerWidth win ->
       -1 <= x2 (pointer (onPointerMove setFromCamera e win st)) <= 1)
    /\ (0 <= clientY e <= innerHeight win ->
       -1 <= y2 (pointer (onPointerMove setFromCamera e win st)) <= 1)
    /\ (clientX e = 0 -> x2 (pointer (onPointerMove setFromCamera e win st)) = -1)
    /\ (clientY e = 0 -> y2 (pointer (onPointerMove setFromCamera e win st)) = 1)
    /\ (clientX e = innerWidth win / 2 ->
        x2 (pointer (onPointerMove setFromCamera e win st)) = 0)
    /\ (clientY e = innerHeight win / 2 ->
        y2 (pointer (onPointerMove setFromCamera e win st)) = 0)
    /\ (clientY e = innerHeight win ->
        y2 (pointer (onPointerMove setFromCamera e win st)) = -1).
Proof.
  intros e win st Hw Hh.
  assert (Hq : forall c d, 0 < d -> 0 <= c <= d -> 0 <= c / d <= 1).
  { intros c d Hd [Hc0 Hc1]. split.
    - apply Rmult_le_pos; [exact Hc0 | left; apply Rinv_0_lt_compat, Hd].
    - apply Rmult_le_reg_r with d; [exact Hd |]. unfold Rdiv.
      rewrite Rmult_assoc, Rinv_l by lra. lra. }
  cbn [onPointerMove pointer pointerNDC x2 y2].
  repeat split.
  - destruct (Hq _ _ Hw H). lra.
  - destruct (Hq _ _ Hw H). lra.
  - destruct (Hq _ _ Hh H). lra.
  - destruct (Hq _ _ Hh H). lra.
  - intros ->. unfold Rdiv. rewrite Rmult_0_l. lra.
  - intros ->. unfold Rdiv. rewrite Rmult_0_l. lra.
  - intros ->. field. lra.
  - intros ->. field. lra.
  - intros ->. field. lra.
Qed.

Lemma run_ring_positions win t0 p evs :
  map (fun m => (index m, position m)) (torusGroup (steps evs (boot win t0 p)))
  = map (fun m => (index m, position m)) buildTori.
Proof.
  apply (invariant
           (fun st => map (fun m => (index m, position m)) (torusGroup st)
                      = map (fun m => (index m, position m)) buildTori)).
  - reflexivity.
  - intros st ev IH. destruct ev as [f | w | e w |]; simpl; try exact IH.
    unfold updateTori. rewrite map_map. exact IH.
Qed.

(** The rings never move: in every state the engine reaches each ring
    sits where it was built, the first at (1.6, 0, 0), and ring i within
    1.6 + 0.14 i of the origin along x and within 0.6 + 0.06 i along y, at
    depth -0.06 i. *)
Theorem rings_stay_where_built :
  forall win t0 p evs,
    map position (torusGroup (steps evs (boot win t0 p))) = map position buildTori
    /\ (exists m, nth_error (torusGroup (steps evs (boot win t0 p))) 0 = Some m
                  /\ x (position m) = 1.6 /\ y (position m) = 0)
    /\ Forall (fun m =>
                 Rabs (x (position m)) <= 1.6 + INR (index m) * 0.14
                 /\ Rabs (y (position m)) <= 0.6 + INR (index m) * 0.06
                 /\ z (position m) = - INR (index m) * 0.06)
              (torusGroup (steps evs (boot win t0 p))).
Proof.
  intros win t0 p evs. pose proof (run_ring_positions win t0 p evs) as Hrun.
  assert (Hpos : map position (torusGroup (steps evs (boot win t0 p)))
                 = map position buildTori).
  { apply (f_equal (map snd)) in Hrun. rewrite !map_map in Hrun. exact Hrun. }
  split; [exact Hpos | split].
  - apply (f_equal (fun l => nth_error l 0)) in Hpos.
    rewrite !nth_error_map in Hpos.
    destruct (nth_error (torusGroup (steps evs (boot win t0 p))) 0) as [m |] eqn:E;
      [| discriminate Hpos].
    exists m. split; [reflexivity |].
    change (nth_error buildTori 0) with (Some (buildTorus 0)) in Hpos.
    simpl in Hpos. injection Hpos as Hm. rewrite Hm. cbn [x y].
    replace (0 / (1 + 1 + 1 + 1 + 1 + 1 + 1 + 1 + 1) * PI * 2) with 0 by lra.
    rewrite cos_0, sin_0. split; lra.
  - apply (Forall_map (fun m => (index m, position m))
             (fun ip : nat * Vector3 =>
                Rabs (x (snd ip)) <= 1.6 + INR (fst ip) * 0.14
                /\ Rabs (y (snd ip)) <= 0.6 + INR (fst ip) * 0.06
                /\ z (snd ip) = - INR (fst ip) * 0.06)).
    rewrite Hrun. apply Forall_map, Forall_forall. intros m Hm.
    unfold buildTori in Hm. apply in_map_iff in Hm. destruct Hm as [i [<- _]].
    apply (buildTorus_in_box i).
Qed.

(** One frame of spin on a ring, given as index and rotation. *)
Local Abbreviation spin :=
  (fun ir : nat * Vector3 =>
     (fst ir,
      mkVector3 (x (snd ir))
                (y (snd ir) + 0.001)
                (z (snd ir) + (0.002 + 0.002 * INR (fst ir mod 3))))).

Lemma run_ring_rotations win t0 p evs :
  map (fun m => (index m, rotation m)) (torusGroup (steps evs (boot win t0 p)))
  = Nat.iter (ticks evs) (map spin) (map (fun m => (index m, rotation m)) buildTori).
Proof.
  induction evs as [| ev evs IH] using rev_ind.
  - reflexivity.
  - rewrite snoc, ticks_snoc.
    destruct ev as [f | w | e w |]; unfold step;
      try (unfold resize, onPointerMove, dispose; cbn [torusGroup];
           rewrite Nat.add_0_r; exact IH).
    rewrite (renderLoop_torusGroup View controls_update), map_map.
    rewrite Nat.add_1_r, Nat.iter_succ, <- IH, map_map.
    reflexivity.
Qed.

(** The spin of the rings counts frames, not time: the rotations are the
    built ones, a tilt of 0.15 pi about x with alternating sign, with the
    step of 0.001 about y and 0.002 + 0.002 (i mod 3) about z added once
    per frame run, so two histories with the same number of frames leave
    the same rotations, whatever the frame durations, windows and other
    events were. *)
Theorem ring_spin_counts_frames :
  (forall win t0 p evs,
      map (fun m => (index m, rotation m)) (torusGroup (steps evs (boot win t0 p)))
      = Nat.iter (ticks evs)
          (map (fun ir : nat * Vector3 =>
                  (fst ir,
                   mkVector3 (x (snd ir))
                             (y (snd ir) + 0.001)
                             (z (snd ir) + (0.002 + 0.002 * INR (fst ir mod 3))))))
          (map (fun i => (i, mkVector3 (PI * 0.15 * (if Nat.even i then 1 else -1)) 0 0))
               (seq 0 9)))
  /\ (forall win1 t1 p1 evs1 win2 t2 p2 evs2,
        ticks evs1 = ticks evs2 ->
        map rotation (torusGroup (steps evs1 (boot win1 t1 p1)))
        = map rotation (torusGroup (steps evs2 (boot win2 t2 p2)))).
Proof.
  split.
  - intros win t0 p evs. rewrite run_ring_rotations. reflexivity.
  - intros win1 t1 p1 evs1 win2 t2 p2 evs2 Hn.
    pose proof (run_ring_rotations win1 t1 p1 evs1) as H1.
    pose proof (run_ring_rotations win2 t2 p2 evs2) as H2.
    rewrite Hn in H1. rewrite <- H2 in H1.
    apply (f_equal (map snd)) in H1. rewrite !map_map in H1. exact H1.
Qed.

(** The root wobble stays within 0.12 either way in every state the
    engine reaches, and the orbiting light keeps its height of 3.4; after a
    frame the light is within 3.6 of the origin along x and along z. *)
Theorem root_wobble_and_light_bounded :
  (forall win t0 p evs,
      let st := run controls_update setFromCamera evs (setupThree initialView win t0 p) in
      -0.12 <= root_rotation_y (motion st) <= 0.12
      /\ -0.12 <= root_position_y (motion st) <= 0.12
      /\ y (orbitLight (motion st)) = 3.4)
  /\ (forall f st,
        -3.6 <= x (orbitLight (motion (renderLoop controls_update f st))) <= 3.6
        /\ -3.6 <= z (orbitLight (motion (renderLoop controls_update f st))) <= 3.6
        /\ y (orbitLight (motion (renderLoop controls_update f st)))
           = y (orbitLight (motion st))).
Proof.
  split.
  - intros win t0 p.
    apply (invariant
             (fun st => -0.12 <= root_rotation_y (motion st) <= 0.12
                        /\ -0.12 <= root_position_y (motion st) <= 0.12
                        /\ y (orbitLight (motion st)) = 3.4)).
    + simpl. repeat split; lra.
    + intros st ev IH. destruct ev as [f | w | e w |]; simpl; try exact IH.
      destruct IH as (_ & _ & Hy).
      pose proof (SIN_bound ((elapsed (motion st) + (now_loop f - lastTime st)) * 0.0005)).
      pose proof (SIN_bound ((elapsed (motion st) + (now_loop f - lastTime st)) * 0.0003)).
      repeat split; first [lra | exact Hy].
  - intros f st. simpl.
    pose proof (COS_bound ((elapsed (motion st) + (now_loop f - lastTime st)) * 0.0007)).
    pose proof (SIN_bound ((elapsed (motion st) + (now_loop f - lastTime st)) * 0.0009)).
    repeat split; lra.
Qed.


Lemma truthy_true (v : R) : JS.truthy v = true -> v <> 0.
Proof.
  unfold JS.truthy. destruct (Req_dec_T v 0) as [E | N]; [discriminate | intros _; exact N].
Qed.

(** The pixel ratio never exceeds the limit of 2 in any state the engine
    reaches; after a resize it is positive whenever devicePixelRatio is
    missing or not negative. *)
Theorem pixel_ratio_capped_and_positive :
  (forall win t0 p evs, pixelRatio (renderer (steps evs (boot win t0 p))) <= 2)
  /\ (forall win st,
        match devicePixelRatio win with
        | Some d => 0 <= d
        | None => True
        end ->
        0 < pixelRatio (renderer (resize win st))).
Proof.
  split.
  - intros win t0 p.
    apply (invariant (fun st => pixelRatio (renderer st) <= 2)).
    + simpl. unfold DPR, pixelRatioLimit. apply Rmin_r.
    + intros st ev IH. destruct ev as [f | w | e w |]; simpl; try exact IH.
      unfold DPR, pixelRatioLimit. apply Rmin_r.
  - intros win st Hd. simpl. unfold DPR, pixelRatioLimit, JS.or_default.
    destruct (devicePixelRatio win) as [d |].
    + destruct (JS.truthy d) eqn:Ht.
      * apply truthy_true in Ht. apply Rmin_glb_lt; lra.
      * apply Rmin_glb_lt; lra.
    + apply Rmin_glb_lt; lra.
Qed.

(** Resources are released by [dispose] only: in every state the engine
    reaches, the number of release calls made is 21 times the number of
    [dispose] calls, whatever frames, resizes and pointer events came in
    between. *)
Theorem releases_only_on_dispose :
  forall win t0 p evs,
    length (released (steps evs (boot win t0 p))) = (21 * disposals evs)%nat.
Proof.
  intros win t0 p evs. induction evs as [| ev evs IH] using rev_ind.
  - reflexivity.
  - rewrite snoc, disposals_snoc.
    destruct ev as [f | w | e w |];
      try (simpl; rewrite IH; lia).
    unfold step, dispose. cbn [released].
    rewrite length_app, IH, disposeCalls_length.
    rewrite (run_torusGroup_length View initialView controls_update setFromCamera).
    unfold count. lia.
Qed.

(** In the engine the triangle field of the HUD is never stale: whenever a
    frame emits a sample and the field exists, it shows the triangle count
    of the draw call of that very frame, and the fps field shows the value
    just computed. *)
Theorem hud_shows_current_frame :
  forall f st,
    emits (now_perf f) (perf st) ->
    (forall w, trisEl (perf st) = Some w ->
       trisEl (perf (tick f st)) = Some (Number (drawn f)))
    /\ (forall w, fpsEl (perf st) = Some w ->
       fpsEl (perf (tick f st)) = Some (Number (IZR (fps (perf (tick f st))))))
    /\ frames (perf (tick f st)) = 0%nat
    /\ last (perf (tick f st)) = now_perf f.
Proof.
  intros f st Hemit.
  change (perf (tick f st))
    with (frameTick (Triangles (drawn f)) (now_perf f) (heap f) (perf st)).
  rewrite (frameTick_sample _ _ _ _ Hemit). cbv zeta. cbn [trisEl fpsEl frames last fps].
  repeat split.
  - intros w Hw. rewrite Hw. unfold showTriangles, setText, JS.or_default.
    destruct (JS.truthy (drawn f)) eqn:Ht; [reflexivity |].
    unfold JS.truthy in Ht. destruct (Req_dec_T (drawn f) 0) as [E | N];
      [rewrite E; reflexivity | discriminate].
  - intros w Hw. rewrite Hw. reflexivity.
Qed.

End EngineInvariants.

Lemma elapsed_advances_with_clock_witness :
  elapsed (motion Sample.engine)
  <= elapsed (motion (renderLoop Sample.controls_update Sample.frame10 Sample.engine))
  /\ 0 <= elapsed (motion (run Sample.controls_update Sample.setFromCamera
                             [Tick Sample.frame10; Resized Sample.window]
                             (setupThree Sample.initialView Sample.window 0 Sample.hud))).
Proof.
  destruct (elapsed_advances_with_clock Sample.View Sample.initialView
              Sample.controls_update Sample.setFromCamera)
    as (Hframe & _ & Hreach & _).
  split.
  - apply Hframe. simpl. lra.
  - apply Hreach. simpl. split; [lra | exact I].
Defined.

Lemma pointer_normalised_to_unit_square_witness :
  x2 (pointer (onPointerMove Sample.setFromCamera Sample.centre Sample.window
                 Sample.engine)) = 0
  /\ y2 (pointer (onPointerMove Sample.setFromCamera Sample.centre Sample.window
                    Sample.engine)) = 0.
Proof.
  assert (Hw : 0 < innerWidth Sample.window) by (simpl; lra).
  assert (Hh : 0 < innerHeight Sample.window) by (simpl; lra).
  destruct (pointer_normalised_to_unit_square Sample.View Sample.setFromCamera
              Sample.centre Sample.window Sample.engine Hw Hh)
    as (_ & _ & _ & _ & Hx & Hy & _).
  split.
  - apply Hx. simpl. lra.
  - apply Hy. simpl. lra.
Defined.

Lemma pixel_ratio_capped_and_positive_witness :
  0 < pixelRatio (renderer (resize (mkWindow 800 600 None) Sample.engine)).
Proof.
  apply (pixel_ratio_capped_and_positive Sample.View Sample.initialView
           Sample.controls_update Sample.setFromCamera).
  simpl. exact I.
Defined.

Lemma hud_shows_current_frame_witness :
  trisEl (perf (renderLoop Sample.controls_update (mkFrame 1000 1234 1000 None)
                  Sample.engine))
  = Some (Number 1234).
Proof.
  apply (hud_shows_current_frame Sample.View Sample.controls_update
           (mkFrame 1000 1234 1000 None) Sample.engine) with (w := Markup).
  - unfold emits. simpl. lra.
  - reflexivity.
Defined.

(** ** What the performance monitor reports *)

(** A reported frame rate is never negative and never exceeds the number
    of frames counted in the window, since the window lasts at least a
    second. *)
Theorem fps_between_zero_and_frame_count :
  forall (r : TrianglesSource) (h : option R) (t : R) (p : PerfState),
    1000 <= t - last p ->
    (0 <= fps (frameTick r t h p) <= Z.of_nat (S (frames p)))%Z.
Proof.
  intros r h t p Hemit.
  rewrite (frameTick_sample r t h p Hemit). cbv zeta. cbn [fps].
  set (n := INR (S (frames p))).
  assert (Hn : 0 <= n) by apply pos_INR.
  assert (Hinv : 0 < / (t - last p)) by (apply Rinv_0_lt_compat; lra).
  assert (Hone : 1000 * / (t - last p) <= 1).
  { apply Rmult_le_reg_r with (t - last p); [lra |].
    rewrite Rmult_assoc, Rinv_l by lra. lra. }
  assert (Hlo : 0 <= n * 1000 / (t - last p)).
  { unfold Rdiv. apply Rmult_le_pos; [lra | lra]. }
  assert (Hhi : n * 1000 / (t - last p) <= n).
  { unfold Rdiv. rewrite Rmult_assoc.
    rewrite <- (Rmult_1_r n) at 2. apply Rmult_le_compat_l; assumption. }
  split.
  - pose proof (Math_round_le _ _ Hlo) as H. rewrite Math_round_IZR in H. exact H.
  - pose proof (Math_round_le _ _ Hhi) as H. unfold n in H.
    rewrite Math_round_INR in H. exact H.
Qed.

Lemma fps_between_zero_and_frame_count_witness :
  (0 <= fps (frameTick NoRenderer 2500 None Sample.hud) <= Z.of_nat 1)%Z.
Proof.
  apply (fps_between_zero_and_frame_count NoRenderer None 2500 Sample.hud).
  simpl. lra.
Defined.

(** When a sample is emitted and the heap size is available and not zero,
    the memory field shows it in whole mebibytes, rounded to the nearest:
    the number shown is within half a mebibyte of the heap size. *)
Theorem memory_shown_in_mebibytes :
  forall (r : TrianglesSource) (bytes t : R) (p : PerfState) (w : Text),
    emits t p ->
    bytes <> 0 ->
    memEl p = Some w ->
    exists n : Z,
      memEl (frameTick r t (Some bytes) p) = Some (Megabytes n)
      /\ Rabs (IZR n * 1048576 - bytes) <= 524288.
Proof.
  intros r bytes t p w Hemit Hnz Hw.
  rewrite (frameTick_sample r t (Some bytes) p Hemit). cbv zeta. cbn [memEl].
  unfold showMemory. rewrite (truthy_nonzero bytes Hnz), Hw.
  exists (JS.Math_round (bytes / 1024 / 1024)). split; [reflexivity |].
  pose proof (Math_round_near (bytes / 1024 / 1024)) as [Hlo Hhi].
  apply Rabs_le. split; lra.
Qed.

Lemma memory_shown_in_mebibytes_witness :
  exists n : Z,
    memEl (frameTick NoRenderer 1000 (Some 3145728) Sample.hud) = Some (Megabytes n)
    /\ Rabs (IZR n * 1048576 - 3145728) <= 524288.
Proof.
  apply (memory_shown_in_mebibytes NoRenderer 3145728 1000 Sample.hud Markup).
  - unfold emits. simpl. lra.
  - lra.
  - reflexivity.
Defined.

(** ** Form validation *)

Section FormProperties.

Variable char : Type.
Variable char_eqb : char -> char -> bool.
Variable isSpace : char -> bool.
Variable at_sign dot : char.

Hypothesis char_eqb_eq : forall a b : char, char_eqb a b = true <-> a = b.

Local Abbreviation here := (Form.match_here char_eqb isSpace).
Local Abbreviation search := (Form.test char_eqb isSpace).
Local Abbreviation solid := (forallb (fun c : char => negb (isSpace c))).
Local Abbreviation blank := (forallb isSpace).
Local Abbreviation strip := (Form.trim isSpace).
Local Abbreviation stripStart := (Form.trimStart isSpace).

Lemma match_literal (c : char) (rest : list (Form.Atom char)) (s : list char) :
  here (Form.Literal c :: rest) s = true
  <-> exists s', s = c :: s' /\ here rest s' = true.
Proof.
  destruct s as [| c' s']; simpl.
  - split; [discriminate | intros (s' & H & _); discriminate].
  - rewrite andb_true_iff, char_eqb_eq. split.
    + intros [-> H]. exists s'. split; [reflexivity | exact H].
    + intros (s'' & [= -> ->] & H). split; [reflexivity | exact H].
Qed.

Lemma match_nonspaces_cons (rest : list (Form.Atom char)) (c : char) (s : list char) :
  here (Form.NonSpaces :: rest) (c :: s)
  = negb (isSpace c) && (here rest s || here (Form.NonSpaces :: rest) s).
Proof. reflexivity. Qed.

Lemma match_nonspaces (rest : list (Form.Atom char)) (s : list char) :
  here (Form.NonSpaces :: rest) s = true
  <-> exists u s', u <> [] /\ solid u = true /\ s = u ++ s' /\ here rest s' = true.
Proof.
  split.
  - induction s as [| c s IH]; [discriminate |].
    rewrite match_nonspaces_cons, andb_true_iff, orb_true_iff.
    intros [Hc [Hrest | Hmore]].
    + exists [c], s. repeat split; try assumption; [discriminate |].
      simpl. rewrite Hc. reflexivity.
    + destruct (IH Hmore) as (u & s' & Hu & Hsolid & -> & Hrest).
      exists (c :: u), s'. repeat split; try assumption; [discriminate |].
      simpl. rewrite Hc, Hsolid. reflexivity.
  - intros (u & s' & Hu & Hsolid & -> & Hrest).
    induction u as [| c u IH]; [contradiction |].
    simpl in Hsolid. apply andb_true_iff in Hsolid. destruct Hsolid as [Hc Hsolid].
    change ((c :: u) ++ s') with (c :: (u ++ s')).
    rewrite match_nonspaces_cons, Hc. cbn [negb andb].
    destruct u as [| c' u'].
    + cbn [app]. rewrite Hrest. reflexivity.
    + rewrite IH; [apply orb_true_r | discriminate | exact Hsolid].
Qed.

Lemma test_anywhere (pat : list (Form.Atom char)) (s : list char) :
  search pat s = true <-> exists pre s', s = pre ++ s' /\ here pat s' = true.
Proof.
  split.
  - induction s as [| c s IH]; simpl; rewrite orb_true_iff.
    + intros [H | H]; [| discriminate]. exists [], []. split; [reflexivity | exact H].
    + intros [H | H].
      * exists [], (c :: s). split; [reflexivity | exact H].
      * destruct (IH H) as (pre & s' & -> & Hs').
        exists (c :: pre), s'. split; [reflexivity | exact Hs'].
  - intros (pre & s' & -> & Hs').
    induction pre as [| c pre IH].
    + simpl. destruct s'; simpl; rewrite Hs'; reflexivity.
    + simpl. rewrite IH. apply orb_true_r.
Qed.

(** The e-mail check accepts exactly the strings that contain, anywhere,
    a run of non-space characters, an at sign, another such run, a dot and
    a third run, all adjacent; in particular a string without an at sign
    is rejected, and text around a well-formed address does not matter. *)
Theorem email_test_characterised :
  forall s : list char,
    (search (Form.emailPattern at_sign dot) s = true
     <-> exists pre u v w post,
           s = pre ++ u ++ at_sign :: v ++ dot :: w ++ post
           /\ u <> [] /\ v <> [] /\ w <> []
           /\ solid u = true /\ solid v = true /\ solid w = true)
    /\ (~ In at_sign s -> search (Form.emailPattern at_sign dot) s = false).
Proof.
  intros s.
  assert (Hiff : search (Form.emailPattern at_sign dot) s = true
                 <-> exists pre u v w post,
                       s = pre ++ u ++ at_sign :: v ++ dot :: w ++ post
                       /\ u <> [] /\ v <> [] /\ w <> []
                       /\ solid u = true /\ solid v = true /\ solid w = true).
  { unfold Form.emailPattern. rewrite test_anywhere. split.
    - intros (pre & s1 & -> & H1).
      apply match_nonspaces in H1. destruct H1 as (u & s2 & Hu & Hsu & -> & H2).
      apply match_literal in H2. destruct H2 as (s3 & -> & H3).
      apply match_nonspaces in H3. destruct H3 as (v & s4 & Hv & Hsv & -> & H4).
      apply match_literal in H4. destruct H4 as (s5 & -> & H5).
      apply match_nonspaces in H5. destruct H5 as (w & post & Hw & Hsw & -> & _).
      exists pre, u, v, w, post. repeat split; assumption.
    - intros (pre & u & v & w & post & -> & Hu & Hv & Hw & Hsu & Hsv & Hsw).
      exists pre, (u ++ at_sign :: v ++ dot :: w ++ post). split; [reflexivity |].
      apply match_nonspaces. exists u, (at_sign :: v ++ dot :: w ++ post).
      repeat split; try assumption.
      apply match_literal. exists (v ++ dot :: w ++ post). split; [reflexivity |].
      apply match_nonspaces. exists v, (dot :: w ++ post).
      repeat split; try assumption.
      apply match_literal. exists (w ++ post). split; [reflexivity |].
      apply match_nonspaces. exists w, post. repeat split; try assumption. }
  split; [exact Hiff |].
  intros Hno. destruct (search (Form.emailPattern at_sign dot) s) eqn:E; [| reflexivity].
  exfalso. apply Hno.
  destruct (proj1 Hiff eq_refl) as (pre & u & v & w & post & -> & _).
  apply in_or_app. right. apply in_or_app. right. left. reflexivity.
Qed.

Lemma trimStart_split (s : list char) :
  exists sp, s = sp ++ stripStart s
             /\ blank sp = true
             /\ (stripStart s = []
                 \/ exists c r, stripStart s = c :: r /\ isSpace c = false).
Proof.
  induction s as [| c s (sp & Hs & Hsp & Hhead)].
  - exists []. repeat split. left. reflexivity.
  - simpl. destruct (isSpace c) eqn:Hc.
    + exists (c :: sp). simpl. rewrite Hc, Hsp, <- Hs. repeat split. exact Hhead.
    + exists []. repeat split. right. exists c, s. split; [reflexivity | exact Hc].
Qed.

Lemma blank_rev (s : list char) : blank s = true -> blank (rev s) = true.
Proof.
  rewrite !forallb_forall. intros H c Hc. apply H, in_rev, Hc.
Qed.

(** [trim] removes white space from both ends and nothing else: the
    string is the trimmed string with white space before and after, and
    the trimmed string, unless empty, begins and ends with a character
    that is not white space. *)
Theorem trim_strips_both_ends :
  forall s : list char,
    exists sp1 sp2,
      s = sp1 ++ strip s ++ sp2
      /\ blank sp1 = true
      /\ blank sp2 = true
      /\ (strip s = []
          \/ (exists c r, strip s = c :: r /\ isSpace c = false)
             /\ (exists r c, strip s = r ++ [c] /\ isSpace c = false)).
Proof.
  intros s. unfold Form.trim.
  destruct (trimStart_split s) as (sp1 & Hs & Hsp1 & Hhead).
  destruct (trimStart_split (rev (stripStart s))) as (sp2 & Hr & Hsp2 & Hlast).
  set (T := stripStart s) in *.
  set (X := stripStart (rev T)) in *.
  assert (HT : T = rev X ++ rev sp2).
  { rewrite <- rev_app_distr, <- Hr. symmetry. apply rev_involutive. }
  exists sp1, (rev sp2). split; [rewrite <- HT; exact Hs |].
  split; [exact Hsp1 | split; [apply blank_rev, Hsp2 |]].
  destruct Hlast as [HX | (c & r & HX & Hc)].
  - left. rewrite HX. reflexivity.
  - right. split.
    + destruct Hhead as [HT0 | (c0 & r0 & HT0 & Hc0)].
      * exfalso. rewrite HT0 in HT. rewrite HX in HT. simpl in HT.
        destruct (rev r); discriminate HT.
      * rewrite HT0 in HT. rewrite HX in *. simpl in *.
        destruct (rev r) as [| c1 r1]; simpl in HT.
        -- injection HT as -> _. exists c, []. split; [reflexivity | exact Hc].
        -- injection HT as -> _. exists c1, (r1 ++ [c]).
           split; [reflexivity | exact Hc0].
    + exists (rev r), c. rewrite HX. split; [reflexivity | exact Hc].
Qed.

Lemma trim_blank (s : list char) : blank s = true -> strip s = [].
Proof.
  intros Hs. unfold Form.trim.
  assert (H0 : stripStart s = []).
  { induction s as [| c s IH]; [reflexivity |].
    simpl in *. apply andb_true_iff in Hs. destruct Hs as [Hc Hs].
    rewrite Hc. apply IH, Hs. }
  rewrite H0. reflexivity.
Qed.

(** The form is sent exactly when the trimmed name is not empty, the
    trimmed e-mail passes the check and the trimmed message has at least
    12 characters; the name is checked first, and a missing name or a name
    of white space only is reported as missing. *)
Theorem submit_outcomes :
  forall fd : Form.Fields char,
    (Form.submit char_eqb isSpace at_sign dot fd = Form.Sending
     <-> Form.field isSpace (Form.name fd) <> []
         /\ search (Form.emailPattern at_sign dot) (Form.field isSpace (Form.email fd)) = true
         /\ (12 <= length (Form.field isSpace (Form.message fd)))%nat)
    /\ (Form.submit char_eqb isSpace at_sign dot fd = Form.NameMissing
        <-> Form.field isSpace (Form.name fd) = [])
    /\ (Form.name fd = None -> Form.submit char_eqb isSpace at_sign dot fd = Form.NameMissing)
    /\ (forall n, Form.name fd = Some n -> blank n = true ->
        Form.submit char_eqb isSpace at_sign dot fd = Form.NameMissing).
Proof.
  intros fd.
  assert (Hmissing : Form.field isSpace (Form.name fd) = [] ->
                     Form.submit char_eqb isSpace at_sign dot fd = Form.NameMissing).
  { intros H. unfold Form.submit. rewrite H. reflexivity. }
  split; [| split; [| split]].
  - unfold Form.submit.
    destruct (Form.field isSpace (Form.name fd)) as [| c n].
    + split; [discriminate | intros [H _]; contradiction].
    + destruct (search (Form.emailPattern at_sign dot) (Form.field isSpace (Form.email fd))).
      * simpl. destruct (Form.field isSpace (Form.message fd)) as [| d m] eqn:Hm.
        -- split; [discriminate | intros (_ & _ & H); simpl in H; lia].
        -- destruct (Nat.ltb (length (d :: m)) 12) eqn:Hlen.
           ++ apply Nat.ltb_lt in Hlen.
              split; [discriminate | intros (_ & _ & H); lia].
           ++ apply Nat.ltb_ge in Hlen.
              split; [intros _; repeat split; [discriminate | exact Hlen] | reflexivity].
      * simpl. split; [discriminate | intros (_ & H & _); discriminate].
  - split; [| exact Hmissing].
    unfold Form.submit.
    destruct (Form.field isSpace (Form.name fd)) as [| c n]; [reflexivity |].
    destruct (negb _); [discriminate |].
    destruct (Form.field isSpace (Form.message fd)); [discriminate |].
    destruct (Nat.ltb _ _); discriminate.
  - intros Hnone. apply Hmissing. unfold Form.field. rewrite Hnone. reflexivity.
  - intros n Hn Hblank. apply Hmissing. unfold Form.field. rewrite Hn.
    apply trim_blank, Hblank.
Qed.

End FormProperties.

Lemma email_test_characterised_witness :
  Form.test N.eqb FormSample.isSpace
    (Form.emailPattern FormSample.at_sign FormSample.dot) FormSample.address = true.
Proof.
  apply (email_test_characterised N N.eqb FormSample.isSpace
           FormSample.at_sign FormSample.dot N.eqb_eq FormSample.address).
  exists [115; 101; 101; 32]%N, [97%N], [98%N], [99%N], [].
  repeat split; discriminate.
Defined.

Lemma submit_outcomes_witness :
  Form.submit N.eqb FormSample.isSpace FormSample.at_sign FormSample.dot
    (Form.mkFields (Some [32; 9; 32]%N) (Some FormSample.address) None)
  = Form.NameMissing.
Proof.
  apply (submit_outcomes N N.eqb FormSample.isSpace FormSample.at_sign FormSample.dot
           (Form.mkFields (Some [32; 9; 32]%N) (Some FormSample.address) None))
    with (n := [32; 9; 32]%N); reflexivity.
Defined.

(** ** Page start-up *)

Lemma attempt_ext (f g : Boot.Setup -> bool) (l : list Boot.Setup) :
  (forall s, f s = g s) -> Boot.attempt f l = Boot.attempt g l.
Proof.
  intros H. induction l as [| s l IH]; [reflexivity |].
  simpl. rewrite (H s), IH. reflexivity.
Qed.

Lemma attempt_completed_sublist (throws : Boot.Setup -> bool) (l : list Boot.Setup) :
  forall s, In s (fst (Boot.attempt throws l)) -> In s l.
Proof.
  induction l as [| a l IH]; intros s; simpl; [tauto |].
  destruct (throws a); simpl; [tauto |].
  destruct (Boot.attempt throws l) as [done ok]. simpl in *.
  intros [-> | H]; [left; reflexivity | right; apply IH, H].
Qed.

(** Without WebGL the 3D scene is never set up, whatever else fails; when
    nothing fails each path runs its steps once, in order.  When the scene
    set-up is the one step that throws, every hook-up of the user interface
    is installed a second time by the fallback. *)
Theorem entry_paths :
  (forall throws, ~ In Boot.Three (Boot.entry false throws))
  /\ (forall throws, (forall s, throws s = false) ->
        Boot.entry false throws = Boot.degradedSteps
        /\ Boot.entry true throws = Boot.initSteps)
  /\ (forall throws,
        throws Boot.Three = true ->
        (forall s, s <> Boot.Three -> throws s = false) ->
        forall s, In s Boot.uiSteps ->
                  count_occ Boot.Setup_eq_dec (Boot.entry true throws) s = 2%nat).
Proof.
  split; [| split].
  - intros throws Hin. unfold Boot.entry in Hin.
    apply attempt_completed_sublist in Hin.
    unfold Boot.degradedSteps in Hin. simpl in Hin.
    repeat (destruct Hin as [Hin | Hin]; [discriminate Hin |]). exact Hin.
  - intros throws Hnone.
    assert (Hext : forall l, Boot.attempt throws l = Boot.attempt (fun _ => false) l)
      by (intros l; apply attempt_ext, Hnone).
    unfold Boot.entry. rewrite !Hext. split; reflexivity.
  - intros throws Hthree Hrest.
    assert (Hext : forall l,
               Boot.attempt throws l
               = Boot.attempt (fun s => match s with Boot.Three => true | _ => false end) l).
    { intros l. apply attempt_ext. intros s.
      destruct s; try (apply Hrest; discriminate). exact Hthree. }
    unfold Boot.entry. rewrite !Hext.
    intros s Hs. unfold Boot.uiSteps in Hs. simpl in Hs.
    repeat (destruct Hs as [<- | Hs]; [reflexivity |]). contradiction.
Qed.

Lemma entry_paths_witness :
  count_occ Boot.Setup_eq_dec
    (Boot.entry true (fun s => match s with Boot.Three => true | _ => false end))
    Boot.Navigation = 2%nat.
Proof.
  apply entry_paths.
  - reflexivity.
  - intros s Hs. destruct s; try reflexivity. exfalso. apply Hs. reflexivity.
  - simpl. left. reflexivity.
Defined.
